(** * Pig: a shallow embedding of [pig.go]

    The game of Pig as simulated by [pig.go]: scores, the two actions
    [roll] and [stay], the strategies [StayAtK] and [Random], the game
    loop [play], the tournament [roundRobin] and the report helper
    [ratioString].

    Conventions of the embedding.
    - Go's [int] is taken 64 bits wide (amd64, arm64); a value is a [Z]
      and every arithmetic operation of the source is followed by [wrap].
    - The package-level generator of [math/rand] is a tape of raw draws
      with a read position; [rand.Intn] and [rand.Float64] consume one
      cell each.  A function of the source that draws takes the generator
      and returns it.
    - A call either returns, panics (index out of range) or is still
      running when the fuel is spent: type [exec].
    - The goroutines of [roundRobin] are resolved by two oracles: the
      draws each worker observes and the order in which the workers'
      vectors arrive on the channel. *)

From Stdlib Require Import ZArith String Ascii Lia.
From Stdlib Require Import Floats.SpecFloat Numbers.DecimalString.
From stdpp Require Import base list.

Local Open Scope Z_scope.

(** ** Machine integers *)

Definition min_int : Z := - 2 ^ 63.
Definition max_int : Z := 2 ^ 63 - 1.

(** The value an [int] holds after an operation whose exact result is [z]. *)
Definition wrap (z : Z) : Z := (z + 2 ^ 63) mod 2 ^ 64 - 2 ^ 63.

Definition int_add (a b : Z) : Z := wrap (a + b).
Definition int_sub (a b : Z) : Z := wrap (a - b).
Definition int_mul (a b : Z) : Z := wrap (a * b).
(** Go's [%] truncates towards zero. *)
Definition int_rem (a b : Z) : Z := Z.rem a b.

Definition in_int (z : Z) : Prop := min_int <= z <= max_int.

(** ** Constants of the source *)

Definition win : Z := 100.
Definition gamesPerSeries : Z := 10.

(** ** The random source *)

Record rng := mkRng { tape : nat -> Z; pos : nat }.

Definition draw (r : rng) : Z * rng :=
  (tape r (pos r), mkRng (tape r) (S (pos r))).

(** [rand.Intn n]: a value in [0, n). *)
Definition rand_Intn (n : Z) (r : rng) : Z * rng :=
  let (c, r') := draw r in (c mod n, r').

(** [rand.Float64() > 0.5].  [Float64] returns [m / 2^53] for a uniform
    53-bit [m], a quotient that binary64 holds exactly, so the comparison
    is decided on [m]. *)
Definition rand_Float64_gt_half (r : rng) : bool * rng :=
  let (c, r') := draw r in (2 ^ 52 <? c mod 2 ^ 53, r').

(** ** Scores and actions *)

Record score := mkScore { player : Z; opponent : Z; thisTurn : Z }.

Definition action : Type := score -> rng -> (score * bool) * rng.

(** The body of [roll] once the die has been read. *)
Definition roll_outcome (s : score) (outcome : Z) : score * bool :=
  if outcome =? 1
  then (mkScore (opponent s) (player s) 0, true)
  else (mkScore (player s) (opponent s) (int_add outcome (thisTurn s)), false).

Definition roll : action := fun s r =>
  let (n, r') := rand_Intn 6 r in
  (roll_outcome s (int_add n 1), r').

Definition stay : action := fun s r =>
  ((mkScore (opponent s) (int_add (player s) (thisTurn s)) 0, true), r).

(** ** Strategies *)

(** The interface [Strategy]: [nextAction] and the [fmt.Stringer] method. *)
Record Strategy := mkStrategy {
  nextAction : score -> rng -> action * rng;
  Strategy_String : string
}.

Definition itoa (z : Z) : string := NilZero.string_of_int (Z.to_int z).

Definition StayAtK_nextAction (k : Z) (s : score) (r : rng) : action * rng :=
  if thisTurn s >=? k then (stay, r) else (roll, r).

Definition StayAtK_String (k : Z) : string := ("Stay at " ++ itoa k)%string.

Definition StayAtK (k : Z) : Strategy :=
  mkStrategy (StayAtK_nextAction k) (StayAtK_String k).

Definition Random_nextAction (s : score) (r : rng) : action * rng :=
  let (b, r') := rand_Float64_gt_half r in
  if b then (stay, r') else (roll, r').

Definition Random_String : string := "Random!"%string.

Definition Random : Strategy := mkStrategy Random_nextAction Random_String.

(** ** Outcomes of a call *)

Inductive exec (A : Type) : Type :=
| Ret (a : A)
| Panic
| OutOfFuel.
Arguments Ret {A} a.
Arguments Panic {A}.
Arguments OutOfFuel {A}.

Definition exec_bind {A B : Type} (m : exec A) (f : A -> exec B) : exec B :=
  match m with
  | Ret a => f a
  | Panic => Panic
  | OutOfFuel => OutOfFuel
  end.

Notation "'let*' x ':=' m 'in' k" := (exec_bind m (fun x => k))
  (at level 10, x pattern, m at level 100, k at level 200).

(** [l[i]] for a Go [int] index. *)
Definition index {A : Type} (l : list A) (i : Z) : exec A :=
  if 0 <=? i
  then match l !! Z.to_nat i with Some x => Ret x | None => Panic end
  else Panic.

(** ** The game loop *)

Record game := mkGame { g_s : score; g_currentPlayer : Z; g_rng : rng }.

(** One pass through the body of the [for] loop of [play]. *)
Definition play_body (strategies : list Strategy) (g : game) : exec game :=
  let* st := index strategies (g_currentPlayer g) in
  let (act, r1) := nextAction st (g_s g) (g_rng g) in
  let '((s', turnIsOver), r2) := act (g_s g) r1 in
  Ret (mkGame s'
         (if turnIsOver
          then int_rem (int_add (g_currentPlayer g) 1) 2
          else g_currentPlayer g)
         r2).

(** The loop condition [s.player+s.thisTurn < win]. *)
Definition play_cond (g : game) : bool :=
  int_add (player (g_s g)) (thisTurn (g_s g)) <? win.

(** The loop; one unit of fuel per evaluation of the loop condition. *)
Fixpoint play_loop (fuel : nat) (strategies : list Strategy) (g : game)
  : exec (Z * rng) :=
  match fuel with
  | O => OutOfFuel
  | S fuel' =>
      if play_cond g
      then let* g' := play_body strategies g in play_loop fuel' strategies g'
      else Ret (g_currentPlayer g, g_rng g)
  end.

Definition play (fuel : nat) (strategy0 strategy1 : Strategy) (r : rng)
  : exec (Z * rng) :=
  let (currentPlayer, r1) := rand_Intn 2 r in
  play_loop fuel [strategy0; strategy1]
    (mkGame (mkScore 0 0 0) currentPlayer r1).

(** ** The tournament *)

(** [winCount[i]++] *)
Definition incr (winCount : list Z) (i : nat) : exec (list Z) :=
  match winCount !! i with
  | Some v => Ret (<[i := int_add v 1]> winCount)
  | None => Panic
  end.

(** The loop over [k]: [games] is the number of iterations left. *)
Fixpoint series (fuel : nat) (strategies : list Strategy) (i j : nat)
    (games : nat) (winCount : list Z) (r : rng) : exec (list Z * rng) :=
  match games with
  | O => Ret (winCount, r)
  | S games' =>
      let* si := index strategies (Z.of_nat i) in
      let* sj := index strategies (Z.of_nat j) in
      let* (winner, r') := play fuel si sj r in
      let* winCount' :=
        (if winner =? 0 then incr winCount i else incr winCount j) in
      series fuel strategies i j games' winCount' r'
  end.

(** The loop over [j], given the indices still to visit. *)
Fixpoint pairings (fuel : nat) (strategies : list Strategy) (i : nat)
    (js : list nat) (winCount : list Z) (r : rng) : exec (list Z * rng) :=
  match js with
  | [] => Ret (winCount, r)
  | j :: js' =>
      let* (winCount', r') :=
        series fuel strategies i j (Z.to_nat gamesPerSeries) winCount r in
      pairings fuel strategies i js' winCount' r'
  end.

(** The goroutine started for index [i]; the value it sends on [results]. *)
Definition worker (fuel : nat) (strategies : list Strategy) (i : nat)
    (r : rng) : exec (list Z) :=
  let n := length strategies in
  let* (winCount, _) :=
    pairings fuel strategies i (seq (S i) (n - S i)) (replicate n 0) r in
  Ret winCount.

(** [wins[j] += r[j]] *)
Definition add_at (wins r : list Z) (j : nat) : exec (list Z) :=
  match wins !! j, r !! j with
  | Some w, Some x => Ret (<[j := int_add w x]> wins)
  | _, _ => Panic
  end.

Fixpoint add_range (wins r : list Z) (js : list nat) : exec (list Z) :=
  match js with
  | [] => Ret wins
  | j :: js' => let* wins' := add_at wins r j in add_range wins' r js'
  end.

(** [for j := range r { wins[j] += r[j] }] *)
Definition accumulate (wins r : list Z) : exec (list Z) :=
  add_range wins r (seq 0 (length r)).

(** The receiving loop, given the vectors in the order they arrive. *)
Fixpoint gather (wins : list Z) (received : list (list Z)) : exec (list Z) :=
  match received with
  | [] => Ret wins
  | r :: rest => let* wins' := accumulate wins r in gather wins' rest
  end.

(** What the workers named in [order] send, in that order; the receiver
    gets nothing further once one of them does not deliver. *)
Fixpoint deliveries (fuel : nat) (strategies : list Strategy)
    (rngs : nat -> rng) (order : list nat) : exec (list (list Z)) :=
  match order with
  | [] => Ret []
  | i :: order' =>
      let* v := worker fuel strategies i (rngs i) in
      let* vs := deliveries fuel strategies rngs order' in
      Ret (v :: vs)
  end.

(** [roundRobin].  [rngs i] is the random source as worker [i] sees it,
    [order] lists the workers in the order their vectors are received. *)
Definition roundRobin (fuel : nat) (strategies : list Strategy)
    (rngs : nat -> rng) (order : list nat) : exec (list Z * Z) :=
  let n := length strategies in
  let* received := deliveries fuel strategies rngs order in
  let* wins := gather (replicate n 0) received in
  let gamesPerStrategy := int_mul gamesPerSeries (int_sub (Z.of_nat n) 1) in
  Ret (wins, gamesPerStrategy).

(** An arrival order is any enumeration of the [n] workers. *)
Definition arrival (n : nat) (order : list nat) : Prop :=
  order ≡ₚ seq 0 n.

(** ** Reporting *)

Local Open Scope string_scope.

(** [float64]: the binary64 format as Stdlib specifies it. *)
Definition float64 : Type := spec_float.
Definition float64_of_int (z : Z) : float64 := binary_normalize 53 1024 z 0 false.
Definition float64_mul (x y : float64) : float64 := SFmul 53 1024 x y.
Definition float64_div (x y : float64) : float64 := SFdiv 53 1024 x y.

(** [n / d] rounded to the nearest integer, ties to even ([0 <= n], [0 < d]). *)
Definition round_half_even (n d : Z) : Z :=
  let q := (n / d)%Z in
  let r2 := (2 * (n mod d))%Z in
  if (r2 <? d)%Z then q
  else if (d <? r2)%Z then (q + 1)%Z
  else if Z.even q then q else (q + 1)%Z.

(** Ten times the magnitude [m * 2^e], rounded to an integer. *)
Definition tenths (m : positive) (e : Z) : Z :=
  if (0 <=? e)%Z then (Z.pos m * 2 ^ e * 10)%Z
  else round_half_even (Z.pos m * 10) (2 ^ (- e)).

Definition sign_string (s : bool) : string := if s then "-" else "".

(** The verb [%0.1f] of [fmt.Sprintf]: one digit after the point, the
    exact value rounded to nearest even; infinities and NaN by name. *)
Definition fmt_f1 (x : float64) : string :=
  match x with
  | S754_nan => "NaN"
  | S754_infinity s => if s then "-Inf" else "+Inf"
  | S754_zero s => sign_string s ++ "0.0"
  | S754_finite s m e =>
      let t := tenths m e in
      sign_string s ++ itoa (t / 10) ++ "." ++ itoa (t mod 10)
  end.

(** [100 * float64(val) / float64(total)] *)
Definition percentage (val total : Z) : float64 :=
  float64_div (float64_mul (float64_of_int 100) (float64_of_int val))
              (float64_of_int total).

(** [fmt.Sprintf("%d/%d (%0.1f%%)", val, total, pct)] *)
Definition ratio_entry (val total : Z) : string :=
  itoa val ++ "/" ++ itoa total ++ " (" ++ fmt_f1 (percentage val total) ++ "%)".

(** The first loop of [ratioString]: [total += val]. *)
Definition ratio_total (vals : list Z) : Z :=
  foldl (fun total val => int_add total val) 0%Z vals.

(** [ratioString]: the two loops over [vals]. *)
Definition ratioString (vals : list Z) : string :=
  let total := ratio_total vals in
  foldl (fun s val =>
           let s := if negb (String.eqb s "") then s ++ ", " else s in
           s ++ ratio_entry val total)
        "" vals.

Local Close Scope string_scope.

(** * Properties *)

(** ** Machine integers and the random source *)

Lemma wrap_id (z : Z) : in_int z -> wrap z = z.
Proof.
  unfold in_int, wrap, min_int, max_int. intros H.
  rewrite Z.mod_small; lia.
Qed.

Lemma wrap_in_int (z : Z) : in_int (wrap z).
Proof.
  unfold in_int, wrap, min_int, max_int.
  pose proof (Z.mod_pos_bound (z + 2 ^ 63) (2 ^ 64)). lia.
Qed.

Lemma int_add_exact (a b : Z) : in_int (a + b) -> int_add a b = a + b.
Proof. apply wrap_id. Qed.

Lemma rand_Intn_range (n : Z) (r : rng) :
  0 < n -> 0 <= (rand_Intn n r).1 < n.
Proof. intros Hn. unfold rand_Intn, draw. simpl. apply Z.mod_pos_bound, Hn. Qed.

Lemma rand_Intn_rng (n : Z) (r : rng) :
  (rand_Intn n r).2 = mkRng (tape r) (S (pos r)).
Proof. reflexivity. Qed.

(** The face the die shows when [roll] reads the source [r]. *)
Definition die (r : rng) : Z := (rand_Intn 6 r).1 + 1.

Lemma die_range (r : rng) : 1 <= die r <= 6.
Proof. unfold die. pose proof (rand_Intn_range 6 r). lia. Qed.

Lemma roll_unfold (s : score) (r : rng) :
  roll s r = (roll_outcome s (die r), (rand_Intn 6 r).2).
Proof.
  unfold roll, die. destruct (rand_Intn 6 r) as [n r'] eqn:E. simpl.
  pose proof (rand_Intn_range 6 r) as Hn. rewrite E in Hn. simpl in Hn.
  rewrite int_add_exact; [reflexivity|].
  unfold in_int, min_int, max_int. lia.
Qed.

(** ** The actions *)

(** What [roll] is said to do with the score [s] when the die shows
    [outcome], [res] being what [roll] returned. *)
Definition roll_on (s : score) (outcome : Z) (res : score * bool) : Prop :=
  (outcome = 1 -> res = (mkScore (opponent s) (player s) 0, true)) /\
  (2 <= outcome <= 6 ->
     res = (mkScore (player s) (opponent s) (thisTurn s + outcome), false) /\
     thisTurn s < thisTurn res.1).

(** C4, amended: for every score with an [int] in [thisTurn] and every
    source, the die shows a face in 1..6; on a 1 [roll] swaps [player] and
    [opponent], resets [thisTurn] and ends the turn; on a face in 2..6,
    provided [thisTurn] plus the face fits in an [int], [roll] leaves
    [player] and [opponent], adds the face to [thisTurn], which strictly
    grows, and does not end the turn.  One cell of the source is read. *)
Theorem roll_by_outcome (s : score) (r : rng) :
  in_int (thisTurn s) ->
  die r = 1 \/ thisTurn s + die r <= max_int ->
  1 <= die r <= 6 /\
  roll_on s (die r) (roll s r).1 /\
  (roll s r).2 = mkRng (tape r) (S (pos r)).
Proof.
  intros Hint Hfit. pose proof (die_range r) as Hd.
  rewrite roll_unfold. simpl. split; [exact Hd|]. split; [|reflexivity].
  unfold roll_on, roll_outcome. split.
  - intros ->. reflexivity.
  - intros H2. destruct (die r =? 1) eqn:E; [lia|].
    rewrite int_add_exact.
    + simpl. rewrite (Z.add_comm (die r)). split; [reflexivity|lia].
    + unfold in_int, min_int, max_int in *. lia.
Qed.

Lemma roll_by_outcome_witness :
  roll_on (mkScore 10 20 7) 5 (roll (mkScore 10 20 7) (mkRng (fun _ => 4) 0)).1.
Proof.
  apply (roll_by_outcome (mkScore 10 20 7) (mkRng (fun _ => 4) 0)).
  - unfold in_int, min_int, max_int. simpl. lia.
  - right. vm_compute. discriminate.
Defined.

(** C4 as stated fails when the sum leaves the range of [int]: with
    [thisTurn] at the largest [int] and a 2 on the die, [thisTurn] wraps
    to a negative value. *)
Lemma roll_by_outcome_overflow :
  let s := mkScore 0 0 max_int in
  let r := mkRng (fun _ => 1) 0 in
  in_int (thisTurn s) /\ die r = 2 /\ ~ roll_on s (die r) (roll s r).1.
Proof.
  split; [|split].
  - vm_compute. split; discriminate.
  - reflexivity.
  - intros [_ H]. destruct H as [_ H]; [vm_compute; split; discriminate|].
    vm_compute in H. discriminate.
Qed.

(** C5, amended: for every score whose [player + thisTurn] fits in an
    [int], [stay] returns the score with [thisTurn] 0, whose [player] is
    the old [opponent] and whose [opponent] is the sum of the old [player]
    and [thisTurn]; it reports the end of the turn, leaves the random
    source where it was and returns the same whatever the source. *)
Theorem stay_banks_sum (s : score) (r : rng) :
  in_int (player s + thisTurn s) ->
  stay s r = ((mkScore (opponent s) (player s + thisTurn s) 0, true), r) /\
  thisTurn (stay s r).1.1 = 0 /\
  player (stay s r).1.1 = opponent s /\
  opponent (stay s r).1.1 = player s + thisTurn s /\
  (stay s r).1.2 = true /\
  (stay s r).2 = r /\
  (forall r0 : rng, (stay s r0).1 = (stay s r).1).
Proof.
  intros H. unfold stay. rewrite (int_add_exact _ _ H). simpl. repeat split.
Qed.

Lemma stay_banks_sum_witness :
  in_int (player (mkScore 30 40 12) + thisTurn (mkScore 30 40 12)) /\
  stay (mkScore 30 40 12) (mkRng (fun _ => 4) 3)
  = ((mkScore 40 42 0, true), mkRng (fun _ => 4) 3).
Proof.
  assert (H : in_int (player (mkScore 30 40 12) + thisTurn (mkScore 30 40 12)))
    by (vm_compute; split; discriminate).
  split; [exact H|].
  apply (proj1 (stay_banks_sum (mkScore 30 40 12) (mkRng (fun _ => 4) 3) H)).
Defined.

(** C5 as stated fails when the sum leaves the range of [int]: with the
    largest [int] banked and 1 point in the turn, the banked score wraps
    to the smallest [int]. *)
Lemma stay_banks_overflow :
  let s := mkScore max_int 5 1 in
  let r := mkRng (fun _ => 1) 0 in
  in_int (player s) /\ in_int (opponent s) /\ in_int (thisTurn s) /\
  opponent (stay s r).1.1 = min_int /\
  opponent (stay s r).1.1 <> player s + thisTurn s.
Proof.
  repeat split; try (vm_compute; discriminate).
Qed.

(** Whatever the score, the banked value is the [int] congruent to the
    sum modulo [2^64]. *)
Lemma stay_banks_wraps (s : score) (r : rng) :
  in_int (opponent (stay s r).1.1) /\
  (opponent (stay s r).1.1 - (player s + thisTurn s)) mod 2 ^ 64 = 0.
Proof.
  simpl. unfold int_add. split; [apply wrap_in_int|].
  unfold wrap.
  replace ((player s + thisTurn s + 2 ^ 63) mod 2 ^ 64 - 2 ^ 63
           - (player s + thisTurn s))
    with ((player s + thisTurn s + 2 ^ 63) mod 2 ^ 64
          - (player s + thisTurn s + 2 ^ 63)) by lia.
  rewrite Zminus_mod, Zmod_mod, <- Zminus_mod, Z.sub_diag. reflexivity.
Qed.

(** ** Strategies *)

Lemma roll_neq_stay : roll <> stay.
Proof.
  intros H.
  apply (f_equal (fun a : action =>
           opponent (a (mkScore 0 0 5) (mkRng (fun _ => 0) 0)).1.1)) in H.
  vm_compute in H. discriminate.
Qed.

(** C6: [StayAtK(k).nextAction(s)] is [stay] exactly when
    [s.thisTurn >= k] and [roll] exactly when [s.thisTurn < k]; it reads
    nothing from the random source.  In particular [StayAtK(100)] answers
    [roll] whenever [s.thisTurn < 100]. *)
Theorem StayAtK_nextAction_threshold (k : Z) (s : score) (r : rng) :
  ((nextAction (StayAtK k) s r).1 = stay <-> thisTurn s >= k) /\
  ((nextAction (StayAtK k) s r).1 = roll <-> thisTurn s < k) /\
  (nextAction (StayAtK k) s r).2 = r /\
  (thisTurn s < 100 -> (nextAction (StayAtK 100) s r).1 = roll).
Proof.
  simpl. unfold StayAtK_nextAction.
  pose proof roll_neq_stay as Hne.
  repeat split.
  - destruct (thisTurn s >=? k) eqn:E; simpl; [lia|]. intros H. congruence.
  - intros H. destruct (thisTurn s >=? k) eqn:E; simpl; [reflexivity|lia].
  - destruct (thisTurn s >=? k) eqn:E; simpl; [|lia]. intros H. congruence.
  - intros H. destruct (thisTurn s >=? k) eqn:E; simpl; [lia|reflexivity].
  - destruct (thisTurn s >=? k); reflexivity.
  - intros H. destruct (thisTurn s >=? 100) eqn:E; simpl; [lia|reflexivity].
Qed.

(** ** The game loop *)

(** The loop of [play] as the specification words it: role indices 0 and
    1, the strategy of the active role chooses the action, the role index
    flips exactly when the action reports the end of the turn, and the
    active role at the exit is the winner. *)
Definition active (strategy0 strategy1 : Strategy) (c : Z) : Strategy :=
  if c =? 0 then strategy0 else strategy1.

Definition flip (c : Z) : Z := 1 - c.

Inductive play_run (strategy0 strategy1 : Strategy)
  : score -> Z -> rng -> Z -> rng -> Prop :=
| play_run_exit s c r :
    ~ int_add (player s) (thisTurn s) < 100 ->
    play_run strategy0 strategy1 s c r c r
| play_run_iter s c r act r1 s' over r2 w rf :
    int_add (player s) (thisTurn s) < 100 ->
    nextAction (active strategy0 strategy1 c) s r = (act, r1) ->
    act s r1 = ((s', over), r2) ->
    play_run strategy0 strategy1 s' (if over then flip c else c) r2 w rf ->
    play_run strategy0 strategy1 s c r w rf.

Definition role (c : Z) : Prop := c = 0 \/ c = 1.

Lemma role_flip (c : Z) : role c -> int_rem (int_add c 1) 2 = flip c /\ role (flip c).
Proof. intros [-> | ->]; vm_compute; auto. Qed.

Lemma index_role (strategy0 strategy1 : Strategy) (c : Z) :
  role c -> index [strategy0; strategy1] c = Ret (active strategy0 strategy1 c).
Proof. intros [-> | ->]; reflexivity. Qed.

Lemma play_body_role (strategy0 strategy1 : Strategy) (g : game) :
  role (g_currentPlayer g) ->
  exists act r1 s' over r2,
    nextAction (active strategy0 strategy1 (g_currentPlayer g)) (g_s g) (g_rng g)
      = (act, r1) /\
    act (g_s g) r1 = ((s', over), r2) /\
    play_body [strategy0; strategy1] g
      = Ret (mkGame s' (if over then flip (g_currentPlayer g)
                        else g_currentPlayer g) r2) /\
    role (if over then flip (g_currentPlayer g) else g_currentPlayer g).
Proof.
  intros Hc. unfold play_body. rewrite (index_role _ _ _ Hc). simpl.
  destruct (nextAction _ (g_s g) (g_rng g)) as [act r1].
  destruct (act (g_s g) r1) as [[s' over] r2] eqn:Ea.
  exists act, r1, s', over, r2.
  destruct (role_flip _ Hc) as [Hf Hr].
  destruct over; rewrite ?Hf; auto.
Qed.

Lemma play_cond_true (g : game) :
  play_cond g = true <-> int_add (player (g_s g)) (thisTurn (g_s g)) < 100.
Proof. unfold play_cond, win. apply Z.ltb_lt. Qed.

Lemma play_loop_sound (strategy0 strategy1 : Strategy) (fuel : nat) :
  forall g w rf,
    role (g_currentPlayer g) ->
    play_loop fuel [strategy0; strategy1] g = Ret (w, rf) ->
    play_run strategy0 strategy1 (g_s g) (g_currentPlayer g) (g_rng g) w rf
    /\ role w.
Proof.
  induction fuel as [|fuel IH]; intros g w rf Hc H; [discriminate|].
  simpl in H. destruct (play_cond g) eqn:Ec.
  - destruct (play_body_role strategy0 strategy1 g Hc)
      as (act & r1 & s' & over & r2 & Hn & Ha & Hb & Hr).
    rewrite Hb in H. simpl in H.
    destruct (IH (mkGame s' _ r2) _ _ Hr H) as [Hrun Hw]. split; [|exact Hw].
    eapply play_run_iter; eauto. apply play_cond_true, Ec.
  - injection H as <- <-. split; [|exact Hc].
    apply play_run_exit. rewrite <- play_cond_true, Ec. discriminate.
Qed.

Lemma play_loop_complete (strategy0 strategy1 : Strategy) s c r w rf :
  play_run strategy0 strategy1 s c r w rf ->
  role c ->
  exists fuel, play_loop fuel [strategy0; strategy1] (mkGame s c r) = Ret (w, rf).
Proof.
  induction 1 as [s c r Hx | s c r act r1 s' over r2 w rf Hlt Hn Ha Hrun IH];
    intros Hc.
  - exists 1%nat. simpl.
    destruct (play_cond (mkGame s c r)) eqn:Ec; [|reflexivity].
    apply play_cond_true in Ec. contradiction.
  - destruct (play_body_role strategy0 strategy1 (mkGame s c r) Hc)
      as (act' & r1' & s'' & over' & r2' & Hn' & Ha' & Hb & Hr).
    simpl in Hn', Ha', Hb, Hr. rewrite Hn in Hn'. injection Hn' as <- <-.
    rewrite Ha in Ha'. injection Ha' as <- <- <-.
    destruct (IH Hr) as [fuel Hf]. exists (S fuel). simpl.
    assert (Ec : play_cond (mkGame s c r) = true) by (apply play_cond_true, Hlt).
    rewrite Ec, Hb. simpl. exact Hf.
Qed.

Lemma play_loop_no_panic (strategy0 strategy1 : Strategy) (fuel : nat) :
  forall g, role (g_currentPlayer g) ->
    play_loop fuel [strategy0; strategy1] g <> Panic.
Proof.
  induction fuel as [|fuel IH]; intros g Hc; [discriminate|].
  simpl. destruct (play_cond g); [|discriminate].
  destruct (play_body_role strategy0 strategy1 g Hc)
    as (act & r1 & s' & over & r2 & _ & _ & Hb & Hr).
  rewrite Hb. simpl. apply IH, Hr.
Qed.

Lemma first_player_role (r : rng) : role (rand_Intn 2 r).1.
Proof. pose proof (rand_Intn_range 2 r). unfold role. lia. Qed.

(** C2: [play] returns [w] exactly when the loop described above, started
    on the score (0,0,0) with the role drawn by [rand.Intn(2)], exits with
    [w] active; [w] is then 0 or 1, and [play] never panics. *)
Theorem play_loop_spec (strategy0 strategy1 : Strategy) (r : rng) (w : Z) (rf : rng) :
  ((exists fuel, play fuel strategy0 strategy1 r = Ret (w, rf)) <->
   play_run strategy0 strategy1 (mkScore 0 0 0)
     (rand_Intn 2 r).1 (rand_Intn 2 r).2 w rf) /\
  ((exists fuel, play fuel strategy0 strategy1 r = Ret (w, rf)) -> w = 0 \/ w = 1) /\
  (forall fuel, play fuel strategy0 strategy1 r <> Panic).
Proof.
  pose proof (first_player_role r) as Hc.
  unfold play. destruct (rand_Intn 2 r) as [c r1]. simpl in *.
  repeat split.
  - intros [fuel H].
    apply (play_loop_sound strategy0 strategy1 fuel (mkGame _ c r1) w rf Hc H).
  - intros H. apply (play_loop_complete _ _ _ _ _ _ _ H Hc).
  - intros [fuel H].
    apply (play_loop_sound strategy0 strategy1 fuel (mkGame _ c r1) w rf Hc H).
  - intros fuel. apply (play_loop_no_panic strategy0 strategy1 fuel (mkGame _ c r1) Hc).
Qed.

(** ** Receiving the workers' vectors *)

Lemma wrap_add_l (a b : Z) : wrap (wrap a + b) = wrap (a + b).
Proof.
  unfold wrap. f_equal.
  replace ((a + 2 ^ 63) mod 2 ^ 64 - 2 ^ 63 + b + 2 ^ 63)
    with ((a + 2 ^ 63) mod 2 ^ 64 + b) by lia.
  rewrite Zplus_mod_idemp_l. f_equal. lia.
Qed.

Lemma int_add_swap (a b c : Z) :
  int_add (int_add a b) c = int_add (int_add a c) b.
Proof.
  unfold int_add. rewrite !wrap_add_l. f_equal. lia.
Qed.

(** [wins] after [wins[j] += r[j]] for the indices [a <= j < a + m]. *)
Definition vadd_range (a m : nat) (wins r : list Z) : list Z :=
  imap (fun j w =>
          if decide (a <= j < a + m)%nat
          then match r !! j with Some x => int_add w x | None => w end
          else w) wins.

(** [wins] after [wins[j] += r[j]] for every index of [r]. *)
Definition vadd (wins r : list Z) : list Z :=
  imap (fun j w => match r !! j with Some x => int_add w x | None => w end) wins.

Lemma length_vadd (wins r : list Z) : length (vadd wins r) = length wins.
Proof. apply length_imap. Qed.

Lemma lookup_vadd (wins r : list Z) (j : nat) :
  vadd wins r !! j =
  (fun w => match r !! j with Some x => int_add w x | None => w end) <$> wins !! j.
Proof. unfold vadd. apply list_lookup_imap. Qed.

Lemma add_range_seq (r : list Z) (m : nat) :
  forall (a : nat) (wins : list Z),
    (a + m <= length r)%nat ->
    add_range wins r (seq a m) =
    if decide (m = 0 \/ a + m <= length wins)%nat
    then Ret (vadd_range a m wins r) else Panic.
Proof.
  induction m as [|m IH]; intros a wins Hr.
  - destruct (decide (0 = 0 \/ a + 0 <= length wins)%nat) as [Hd|Hd];
      [|exfalso; lia]. cbn [seq add_range]. f_equal.
    apply list_eq. intros j. unfold vadd_range. rewrite list_lookup_imap.
    destruct (wins !! j); cbn [fmap option_fmap option_map]; [|reflexivity].
    case_decide; [exfalso; lia|reflexivity].
  - cbn [seq add_range]. unfold add_at.
    destruct (lookup_lt_is_Some_2 r a) as [x Hx]; [lia|]. rewrite Hx.
    destruct (wins !! a) as [w|] eqn:Hw.
    + cbn [exec_bind]. rewrite IH by lia. rewrite length_insert.
      pose proof (lookup_lt_Some _ _ _ Hw) as Hlt.
      destruct (decide (m = 0 \/ S a + m <= length wins)%nat) as [Hd|Hd];
        destruct (decide (S m = 0 \/ a + S m <= length wins)%nat) as [Hd'|Hd'];
        try (exfalso; lia); [|reflexivity]. f_equal.
      apply list_eq. intros j. unfold vadd_range. rewrite !list_lookup_imap.
      destruct (decide (j = a)) as [->|Hj].
      * rewrite list_lookup_insert_eq by lia. rewrite Hw.
        cbn [fmap option_fmap option_map].
        repeat case_decide; try (exfalso; lia); rewrite Hx; reflexivity.
      * rewrite list_lookup_insert_ne by lia.
        destruct (wins !! j); cbn [fmap option_fmap option_map]; [|reflexivity].
        repeat case_decide; try (exfalso; lia); reflexivity.
    + cbn [exec_bind]. apply lookup_ge_None in Hw.
      destruct (decide (S m = 0 \/ a + S m <= length wins)%nat) as [Hd|Hd];
        [exfalso; lia|reflexivity].
Qed.

Lemma accumulate_spec (wins r : list Z) :
  accumulate wins r =
  if decide (length r <= length wins)%nat then Ret (vadd wins r) else Panic.
Proof.
  unfold accumulate. rewrite add_range_seq by lia.
  destruct (decide (length r = 0 \/ 0 + length r <= length wins)%nat) as [Hd|Hd];
    destruct (decide (length r <= length wins)%nat) as [Hd'|Hd'];
    try (exfalso; lia); [|reflexivity]. f_equal.
  apply list_eq. intros j. rewrite lookup_vadd. unfold vadd_range.
  rewrite list_lookup_imap.
  destruct (wins !! j); cbn [fmap option_fmap option_map]; [|reflexivity].
  case_decide; [reflexivity|].
  rewrite (lookup_ge_None_2 r j) by lia. reflexivity.
Qed.

Lemma vadd_swap (wins x y : list Z) :
  vadd (vadd wins x) y = vadd (vadd wins y) x.
Proof.
  apply list_eq. intros j. rewrite !lookup_vadd.
  destruct (wins !! j) as [w|]; simpl; [|reflexivity].
  destruct (x !! j), (y !! j); try reflexivity.
  f_equal. apply int_add_swap.
Qed.

Lemma accumulate_swap (wins x y : list Z) :
  (let* w := accumulate wins x in accumulate w y) =
  (let* w := accumulate wins y in accumulate w x).
Proof.
  rewrite !accumulate_spec.
  repeat case_decide; cbn [exec_bind]; rewrite ?accumulate_spec, ?length_vadd;
    repeat case_decide; try (exfalso; lia); try reflexivity.
  f_equal. apply vadd_swap.
Qed.

Lemma exec_bind_assoc {A B C : Type} (m : exec A) (f : A -> exec B) (g : B -> exec C) :
  (let* b := (let* a := m in f a) in g b) = (let* a := m in let* b := f a in g b).
Proof. destruct m; reflexivity. Qed.

Lemma gather_Permutation (received received' : list (list Z)) :
  received ≡ₚ received' ->
  forall wins, gather wins received = gather wins received'.
Proof.
  induction 1 as [|r l l' Hp IH|x y l|l l' l'' H1 IH1 H2 IH2]; intros wins.
  - reflexivity.
  - simpl. destruct (accumulate wins r); simpl; auto.
  - simpl. rewrite <- !exec_bind_assoc. rewrite (accumulate_swap wins y x).
    reflexivity.
  - rewrite IH1. apply IH2.
Qed.

(** ** Win counts *)

Definition sumZ (l : list Z) : Z := foldr Z.add 0 l.

(** Entry [x] of a vector, 0 beyond its end. *)
Definition get (l : list Z) (x : nat) : Z := default 0 (l !! x).

(** [ok P m]: the call [m] does not panic, and what it returns satisfies
    [P]. *)
Definition ok {A : Type} (P : A -> Prop) (m : exec A) : Prop :=
  match m with
  | Ret a => P a
  | Panic => False
  | OutOfFuel => True
  end.

Lemma ok_bind {A B : Type} (P : A -> Prop) (Q : B -> Prop)
    (m : exec A) (f : A -> exec B) :
  ok P m -> (forall a, P a -> ok Q (f a)) -> ok Q (let* a := m in f a).
Proof. destruct m; simpl; auto. Qed.

Lemma ok_weaken {A : Type} (P Q : A -> Prop) (m : exec A) :
  ok P m -> (forall a, P a -> Q a) -> ok Q m.
Proof. destruct m; simpl; auto. Qed.

Lemma get_insert (l : list Z) (t x : nat) (v : Z) :
  (t < length l)%nat ->
  get (<[t := v]> l) x = if decide (x = t) then v else get l x.
Proof.
  intros Ht. unfold get. case_decide as Hx.
  - subst x. rewrite list_lookup_insert_eq by exact Ht. reflexivity.
  - rewrite list_lookup_insert_ne by congruence. reflexivity.
Qed.

Lemma get_replicate (n x : nat) : get (replicate n 0) x = 0.
Proof.
  unfold get. destruct (replicate n 0 !! x) as [v|] eqn:E; [|reflexivity].
  apply lookup_replicate_1 in E. simpl. apply E.
Qed.

Lemma sumZ_replicate (n : nat) : sumZ (replicate n 0) = 0.
Proof. induction n as [|n IH]; simpl; [reflexivity|exact IH]. Qed.

Lemma sumZ_insert (l : list Z) :
  forall (t : nat) (v : Z), (t < length l)%nat ->
    sumZ (<[t := v]> l) = sumZ l - get l t + v.
Proof.
  induction l as [|a l IH]; intros t v Ht; simpl in Ht; [lia|].
  destruct t as [|t]; simpl.
  - unfold get. simpl. lia.
  - rewrite IH by lia. unfold get. simpl. lia.
Qed.

Lemma sumZ_pointwise (l1 : list Z) :
  forall l2 l3 : list Z,
    length l2 = length l1 -> length l3 = length l1 ->
    (forall x, get l3 x = get l1 x + get l2 x) ->
    sumZ l3 = sumZ l1 + sumZ l2.
Proof.
  induction l1 as [|a l1 IH]; intros [|b l2] [|c l3] H2 H3 Hp;
    simpl in *; try lia.
  pose proof (Hp 0%nat) as H0. unfold get in H0. simpl in H0.
  rewrite (IH l2 l3); try lia.
  intros x. apply (Hp (S x)).
Qed.

Lemma index_of_nat {A : Type} (l : list A) (i : nat) (x : A) :
  l !! i = Some x -> index l (Z.of_nat i) = Ret x.
Proof.
  intros H. unfold index.
  destruct (Z.leb_spec 0 (Z.of_nat i)); [|lia].
  rewrite Nat2Z.id, H. reflexivity.
Qed.

Lemma play_ok (fuel : nat) (strategy0 strategy1 : Strategy) (r : rng) :
  ok (fun res => role res.1) (play fuel strategy0 strategy1 r).
Proof.
  pose proof (first_player_role r) as Hc. unfold play.
  destruct (rand_Intn 2 r) as [c r1]. simpl in Hc.
  destruct (play_loop fuel [strategy0; strategy1] (mkGame (mkScore 0 0 0) c r1))
    as [[w rf]| |] eqn:E; simpl; [| |exact I].
  - apply (play_loop_sound _ _ _ (mkGame _ c r1) _ _ Hc E).
  - apply (play_loop_no_panic strategy0 strategy1 fuel (mkGame _ c r1) Hc E).
Qed.

(** The effect of [k] games between [i] and [j] on a win-count vector. *)
Definition credited (i j : nat) (k : Z) (w w' : list Z) : Prop :=
  length w' = length w /\
  exists a b : Z,
    0 <= a /\ 0 <= b /\ a + b = k /\
    get w' i = get w i + a /\
    get w' j = get w j + b /\
    (forall x, x <> i -> x <> j -> get w' x = get w x) /\
    sumZ w' = sumZ w + k.

Lemma incr_ok (w : list Z) (t : nat) :
  (t < length w)%nat -> min_int <= get w t -> get w t + 1 <= max_int ->
  incr w t = Ret (<[t := get w t + 1]> w).
Proof.
  intros Ht Hlo Hhi. unfold incr, get in *.
  destruct (lookup_lt_is_Some_2 w t Ht) as [v Hv]. rewrite Hv in *. simpl in *.
  rewrite int_add_exact; [reflexivity|].
  unfold in_int, min_int, max_int in *. lia.
Qed.

Lemma series_ok (fuel : nat) (strategies : list Strategy) (i j : nat) (games : nat) :
  forall (w : list Z) (r : rng),
    i <> j ->
    (i < length strategies)%nat -> (j < length strategies)%nat ->
    length w = length strategies ->
    min_int <= get w i -> get w i + Z.of_nat games <= max_int ->
    min_int <= get w j -> get w j + Z.of_nat games <= max_int ->
    ok (fun res => credited i j (Z.of_nat games) w res.1)
       (series fuel strategies i j games w r).
Proof.
  induction games as [|games IH]; intros w r Hij Hi Hj Hw Hil Hih Hjl Hjh.
  - simpl. split; [reflexivity|]. exists 0, 0. repeat split; lia.
  - cbn [series].
    destruct (lookup_lt_is_Some_2 strategies i Hi) as [si Hsi].
    destruct (lookup_lt_is_Some_2 strategies j Hj) as [sj Hsj].
    rewrite (index_of_nat _ _ _ Hsi), (index_of_nat _ _ _ Hsj). cbn [exec_bind].
    eapply ok_bind; [apply play_ok|]. intros [winner r'] _.
    set (t := if winner =? 0 then i else j).
    assert (Ht : (t < length w)%nat) by (unfold t; destruct (winner =? 0); lia).
    assert (Htl : min_int <= get w t) by (unfold t; destruct (winner =? 0); lia).
    assert (Hth : get w t + 1 <= max_int) by (unfold t; destruct (winner =? 0); lia).
    assert (Hinc : (if winner =? 0 then incr w i else incr w j)
                   = Ret (<[t := get w t + 1]> w)).
    { rewrite <- (incr_ok w t Ht Htl Hth). unfold t. destruct (winner =? 0); reflexivity. }
    rewrite Hinc. cbn [exec_bind].
    set (w1 := <[t := get w t + 1]> w).
    assert (Hg : forall x, get w1 x = if decide (x = t) then get w t + 1 else get w x)
      by (intros x; apply get_insert, Ht).
    assert (Hs1 : sumZ w1 = sumZ w + 1)
      by (unfold w1; rewrite sumZ_insert by exact Ht; lia).
    assert (Hl1 : length w1 = length w) by apply length_insert.
    eapply ok_weaken.
    + apply (IH w1 r'); try assumption; try lia;
        (rewrite Hg; case_decide as Hd; [rewrite <- Hd|]; lia).
    + intros [w' r''] [Hlen (a & b & Ha & Hb & Hab & Hgi & Hgj & Hgo & Hsum)].
      simpl in *. split; [lia|].
      rewrite Hg in Hgi, Hgj.
      unfold t in *. destruct (winner =? 0).
      * exists (a + 1), b.
        rewrite decide_True in Hgi by reflexivity.
        rewrite decide_False in Hgj by congruence.
        repeat split; try lia.
        intros x Hxi Hxj. rewrite (Hgo x Hxi Hxj), Hg.
        rewrite decide_False by exact Hxi. reflexivity.
      * exists a, (b + 1).
        rewrite decide_False in Hgi by congruence.
        rewrite decide_True in Hgj by reflexivity.
        repeat split; try lia.
        intros x Hxi Hxj. rewrite (Hgo x Hxi Hxj), Hg.
        rewrite decide_False by exact Hxj. reflexivity.
Qed.

Section Tournament.

Variable fuel : nat.
Variable strategies : list Strategy.
Let n : nat := length strategies.

(** No slice Go can allocate is long enough to break this bound. *)
Hypothesis Hfit : gamesPerSeries * (Z.of_nat n - 1) <= max_int.

(** The vector of worker [i] once the opponents below [J] are done. *)
Definition tallied (i J : nat) (w : list Z) : Prop :=
  length w = n /\
  (forall x, 0 <= get w x) /\
  get w i <= 10 * (Z.of_nat J - Z.of_nat i - 1) /\
  (forall x, x <> i -> get w x <= 10) /\
  (forall x, (x < i \/ J <= x)%nat -> get w x = 0) /\
  sumZ w = 10 * (Z.of_nat J - Z.of_nat i - 1).

Lemma pairings_ok (i : nat) (m : nat) :
  forall (J : nat) (w : list Z) (r : rng),
    (i < J)%nat -> (J + m = n)%nat -> tallied i J w ->
    ok (fun res => tallied i n res.1)
       (pairings fuel strategies i (seq J m) w r).
Proof using Hfit.
  induction m as [|m IH]; intros J w r HiJ HJ Hw.
  - simpl. replace n with J by lia. exact Hw.
  - cbn [seq pairings].
    destruct Hw as (Hlen & Hnn & Hi & Hle & Hz & Hsum).
    assert (Hmax : 10 * (Z.of_nat n - 1) <= max_int) by exact Hfit.
    assert (HJ0 : get w J = 0) by (apply Hz; lia).
    pose proof (Hnn i) as Hnni.
    eapply ok_bind.
    + apply (series_ok fuel strategies i J (Z.to_nat gamesPerSeries) w r);
        fold n; change (Z.of_nat (Z.to_nat gamesPerSeries)) with 10;
        unfold min_int, max_int in *; try lia.
    + intros [w' r']. change (Z.of_nat (Z.to_nat gamesPerSeries)) with 10.
      intros [Hlen' (a & b & Ha & Hb & Hab & Hgi & Hgj & Hgo & Hsum')].
      simpl in *. apply IH; [lia|lia|].
      repeat split.
      * lia.
      * intros x. destruct (decide (x = i)) as [->|Hxi]; [lia|].
        destruct (decide (x = J)) as [->|HxJ]; [lia|].
        rewrite Hgo by assumption. apply Hnn.
      * lia.
      * intros x Hxi. destruct (decide (x = J)) as [->|HxJ]; [lia|].
        rewrite Hgo by assumption. apply Hle, Hxi.
      * intros x Hx. rewrite Hgo by lia. apply Hz. lia.
      * lia.
Qed.

(** The largest entry [x] the vector of worker [i] can hold. *)
Definition worker_bound (i x : nat) : Z :=
  if (x <? i)%nat then 0
  else if (x =? i)%nat then 10 * (Z.of_nat n - 1 - Z.of_nat i)
  else 10.

Definition worker_vector (i : nat) (v : list Z) : Prop :=
  length v = n /\
  (forall x, 0 <= get v x <= worker_bound i x) /\
  sumZ v = 10 * (Z.of_nat n - 1 - Z.of_nat i).

Lemma worker_ok (i : nat) (r : rng) :
  (i < n)%nat -> ok (worker_vector i) (worker fuel strategies i r).
Proof using Hfit.
  intros Hi. unfold worker. fold n.
  eapply ok_bind.
  - apply (pairings_ok i (n - S i) (S i) (replicate n 0) r); [lia|lia|].
    repeat split.
    + apply length_replicate.
    + intros x. rewrite get_replicate. lia.
    + rewrite get_replicate. lia.
    + intros x _. rewrite get_replicate. lia.
    + intros x _. apply get_replicate.
    + rewrite sumZ_replicate. lia.
  - intros [w r'] (Hlen & Hnn & Hgi & Hle & Hz & Hsum). simpl in *.
    repeat split; try lia.
    + apply Hnn.
    + unfold worker_bound.
      destruct (Nat.ltb_spec x i); [rewrite Hz by lia; lia|].
      destruct (Nat.eqb_spec x i); [subst; lia|]. apply Hle. assumption.
Qed.

Lemma deliveries_ok (rngs : nat -> rng) (order : list nat) :
  Forall (fun i => (i < n)%nat) order ->
  ok (fun vs => Forall2 worker_vector order vs)
     (deliveries fuel strategies rngs order).
Proof using Hfit.
  induction 1 as [|i order Hi Hall IH]; cbn [deliveries].
  - constructor.
  - eapply ok_bind; [apply worker_ok, Hi|]. intros v Hv.
    eapply ok_bind; [apply IH|]. intros vs Hvs. simpl. constructor; assumption.
Qed.

(** The tally once the vectors of the workers below [k] are in. *)
Definition gathered (k : nat) (wins : list Z) : Prop :=
  length wins = n /\
  sumZ wins = 5 * Z.of_nat k * (2 * Z.of_nat n - Z.of_nat k - 1) /\
  (forall x, 0 <= get wins x <=
             if (x <? k)%nat then 10 * (Z.of_nat n - 1) else 10 * Z.of_nat k).

Lemma get_vadd (wins v : list Z) (x : nat) :
  length v = length wins ->
  get (vadd wins v) x = int_add (get wins x) (get v x).
Proof.
  intros Hlen. unfold get. rewrite lookup_vadd.
  destruct (wins !! x) as [w|] eqn:Ew.
  - destruct (lookup_lt_is_Some_2 v x) as [y Hy].
    { rewrite Hlen. apply (lookup_lt_Some _ _ _ Ew). }
    rewrite Hy. reflexivity.
  - rewrite (lookup_ge_None_2 v x).
    + reflexivity.
    + rewrite Hlen. apply lookup_ge_None, Ew.
Qed.

Lemma get_beyond (l : list Z) (x : nat) : (length l <= x)%nat -> get l x = 0.
Proof. intros H. unfold get. rewrite lookup_ge_None_2 by exact H. reflexivity. Qed.

Lemma gather_seq_ok (m : nat) :
  forall (k : nat) (vs : list (list Z)) (wins : list Z),
    (k + m <= n)%nat ->
    Forall2 worker_vector (seq k m) vs ->
    gathered k wins ->
    exists wins', gather wins vs = Ret wins' /\ gathered (k + m) wins'.
Proof using Hfit.
  induction m as [|m IH]; intros k vs wins Hk Hvs Hg.
  - inversion Hvs; subst. exists wins. split; [reflexivity|].
    replace (k + 0)%nat with k by lia. exact Hg.
  - cbn [seq] in Hvs. inversion Hvs as [|? v ? vs' Hv Hvs' ]; subst.
    destruct Hg as (Hlen & Hsum & Hb). destruct Hv as (Hlv & Hbv & Hsv).
    assert (Hmax : 10 * (Z.of_nat n - 1) <= max_int) by exact Hfit.
    assert (Hget : forall x, get (vadd wins v) x = get wins x + get v x).
    { intros x. rewrite get_vadd by lia. apply int_add_exact.
      destruct (le_lt_dec n x) as [Hx|Hx].
      - rewrite (get_beyond wins), (get_beyond v) by lia.
        unfold in_int, min_int, max_int. lia.
      - pose proof (Hb x) as Hbx. pose proof (Hbv x) as Hbvx.
        unfold worker_bound in Hbvx.
        destruct (Nat.ltb_spec x k); destruct (Nat.ltb_spec x k);
          destruct (Nat.eqb_spec x k);
          unfold in_int, min_int, max_int in *; lia. }
    cbn [gather]. rewrite accumulate_spec.
    destruct (decide (length v <= length wins)%nat) as [Hd|Hd]; [|lia].
    cbn [exec_bind].
    destruct (IH (S k) vs' (vadd wins v)) as (wins' & Hw' & Hg'); [lia|assumption| |].
    + repeat split.
      * rewrite length_vadd. exact Hlen.
      * rewrite (sumZ_pointwise wins v (vadd wins v));
          [rewrite Hsum, Hsv; lia|lia|rewrite length_vadd; lia|exact Hget].
      * rewrite Hget. pose proof (Hb x). pose proof (Hbv x). lia.
      * rewrite Hget. pose proof (Hb x) as Hbx. pose proof (Hbv x) as Hbvx.
        unfold worker_bound in Hbvx.
        destruct (Nat.ltb_spec x (S k)); destruct (Nat.ltb_spec x k);
          destruct (Nat.eqb_spec x k); lia.
    + exists wins'. split; [exact Hw'|].
      replace (k + S m)%nat with (S k + m)%nat by lia. exact Hg'.
Qed.

End Tournament.

(** The sum of the entries [x] of the vectors. *)
Definition column (received : list (list Z)) (x : nat) : Z :=
  sumZ (map (fun r => get r x) received).

Lemma column_cons (r : list Z) (received : list (list Z)) (x : nat) :
  column (r :: received) x = get r x + column received x.
Proof. reflexivity. Qed.

Lemma column_Permutation (received received' : list (list Z)) (x : nat) :
  received ≡ₚ received' -> column received' x = column received x.
Proof.
  induction 1 as [|r l l' Hp IH|r1 r2 l|l l' l'' H1 IH1 H2 IH2];
    rewrite ?column_cons; lia.
Qed.

Lemma column_nonneg (received : list (list Z)) (x : nat) :
  Forall (fun r => length r = length r /\ forall y, 0 <= get r y) received ->
  0 <= column received x.
Proof.
  induction 1 as [|r l [_ Hr] Hl IH]; [unfold column; simpl; lia|].
  rewrite column_cons. pose proof (Hr x). lia.
Qed.

Lemma gather_columns (received : list (list Z)) :
  forall wins : list Z,
    Forall (fun r => length r = length wins /\ forall x, 0 <= get r x) received ->
    (forall x, 0 <= get wins x) ->
    (forall x, get wins x + column received x <= max_int) ->
    exists v,
      gather wins received = Ret v /\ length v = length wins /\
      forall x, get v x = get wins x + column received x.
Proof.
  induction received as [|r rest IH]; intros wins Hall Hw Hmax.
  - exists wins. split; [reflexivity|]. split; [reflexivity|].
    intros x. unfold column. simpl. lia.
  - inversion Hall as [|? ? [Hlen Hr] Hrest]; subst.
    assert (Hn : forall x, 0 <= column rest x).
    { intros x. apply column_nonneg. eapply Forall_impl; [exact Hrest|].
      intros r' [_ H']. split; [reflexivity|exact H']. }
    assert (Hget : forall x, get (vadd wins r) x = get wins x + get r x).
    { intros x. rewrite get_vadd by exact Hlen. apply int_add_exact.
      pose proof (Hw x). pose proof (Hr x). pose proof (Hn x).
      pose proof (Hmax x) as Hm. rewrite column_cons in Hm.
      unfold in_int, min_int, max_int in *. lia. }
    cbn [gather]. rewrite accumulate_spec.
    destruct (decide (length r <= length wins)%nat) as [Hd|Hd]; [|lia].
    cbn [exec_bind].
    destruct (IH (vadd wins r)) as (v & Hv & Hlv & Hgv).
    + eapply Forall_impl; [exact Hrest|]. intros r' [Hl' H'].
      split; [rewrite length_vadd; exact Hl'|exact H'].
    + intros x. rewrite Hget. pose proof (Hw x). pose proof (Hr x). lia.
    + intros x. rewrite Hget. pose proof (Hmax x) as Hm.
      rewrite column_cons in Hm. lia.
    + exists v. split; [exact Hv|]. split; [rewrite Hlv; apply length_vadd|].
      intros x. rewrite Hgv, Hget, column_cons. lia.
Qed.

(** C7: the tally does not depend on the order in which the workers'
    vectors are received.  Received in any permuted order, from any
    starting tally, the receiving loop ends in the same state; and for
    vectors as the workers send them (as long as the tally, non-negative
    entries and no sum beyond the range of [int]) that state is the
    starting tally plus, entry by entry, the sum of the vectors, which is
    the same for every order. *)
Theorem gather_order_irrelevant (wins : list Z) (received received' : list (list Z)) :
  received ≡ₚ received' ->
  gather wins received = gather wins received' /\
  (forall x, column received' x = column received x) /\
  (Forall (fun r => length r = length wins /\ forall x, 0 <= get r x) received ->
   (forall x, 0 <= get wins x) ->
   (forall x, get wins x + column received x <= max_int) ->
   exists v,
     gather wins received = Ret v /\ gather wins received' = Ret v /\
     length v = length wins /\
     forall x, get v x = get wins x + column received x).
Proof.
  intros Hp. split; [apply gather_Permutation, Hp|].
  split; [intros x; apply column_Permutation, Hp|].
  intros Hall Hw Hmax.
  destruct (gather_columns received wins Hall Hw Hmax) as (v & Hv & Hl & Hg).
  exists v. split; [exact Hv|].
  split; [rewrite <- (gather_Permutation received received' Hp); exact Hv|].
  split; assumption.
Qed.

Lemma gather_order_irrelevant_witness :
  let received := [[10; 0; 10]; [0; 0; 10]; [0; 0; 0]] in
  let received' := [[0; 0; 0]; [10; 0; 10]; [0; 0; 10]] in
  received ≡ₚ received' /\
  gather [0; 0; 0] received = Ret [10; 0; 20] /\
  gather [0; 0; 0] received' = Ret [10; 0; 20] /\
  exists v,
    gather [0; 0; 0] received = Ret v /\ gather [0; 0; 0] received' = Ret v /\
    length v = 3%nat /\
    forall x, get v x = get [0; 0; 0] x + column received x.
Proof.
  intros received received'.
  assert (Hp : received ≡ₚ received').
  { change received with ([[10; 0; 10]; [0; 0; 10]] ++ [[0; 0; 0]]).
    rewrite Permutation_app_comm. reflexivity. }
  assert (Hsmall : forall r : list Z,
            r = [10; 0; 10] \/ r = [0; 0; 10] \/ r = [0; 0; 0] ->
            length r = length [0; 0; 0] /\ forall x, 0 <= get r x).
  { intros r [-> | [-> | ->]]; (split; [reflexivity|]);
      intros [|[|[|x]]]; vm_compute; discriminate. }
  assert (Hall : Forall (fun r => length r = length [0; 0; 0]
                                  /\ forall x, 0 <= get r x) received).
  { repeat constructor; apply Hsmall; auto. }
  assert (Hw : forall x, 0 <= get [0; 0; 0] x).
  { intros [|[|[|x]]]; vm_compute; discriminate. }
  assert (Hmax : forall x, get [0; 0; 0] x + column received x <= max_int).
  { intros [|[|[|x]]]; vm_compute; discriminate. }
  assert (E : gather [0; 0; 0] received = Ret [10; 0; 20])
    by (vm_compute; reflexivity).
  split; [exact Hp|]. split; [exact E|].
  split; [rewrite <- (proj1 (gather_order_irrelevant [0; 0; 0] _ _ Hp)); exact E|].
  apply (proj2 (proj2 (gather_order_irrelevant [0; 0; 0] received received' Hp))
           Hall Hw Hmax).
Defined.

Lemma arrival_bound (n : nat) (order : list nat) :
  arrival n order -> Forall (fun i => (i < n)%nat) order.
Proof.
  intros Hp. apply Forall_forall. intros i Hi.
  assert (Hin : i ∈ seq 0 n) by (rewrite <- Hp; exact Hi).
  apply elem_of_seq in Hin. lia.
Qed.

Lemma pairs_even (n : Z) : 2 * (n * (n - 1) / 2) = n * (n - 1).
Proof.
  destruct (Z.Even_or_Odd n) as [[k ->]|[k ->]].
  - replace (2 * k * (2 * k - 1)) with (k * (2 * k - 1) * 2) by lia.
    rewrite Z.div_mul by lia. lia.
  - replace ((2 * k + 1) * (2 * k + 1 - 1)) with ((2 * k + 1) * k * 2) by lia.
    rewrite Z.div_mul by lia. lia.
Qed.

Lemma roundRobin_ok (fuel : nat) (strategies : list Strategy)
    (rngs : nat -> rng) (order : list nat) :
  let n := Z.of_nat (length strategies) in
  gamesPerSeries * (n - 1) <= max_int ->
  arrival (length strategies) order ->
  ok (fun res =>
        length res.1 = length strategies /\
        sumZ res.1 = gamesPerSeries * (n * (n - 1) / 2) /\
        res.2 = gamesPerSeries * (n - 1))
     (roundRobin fuel strategies rngs order).
Proof.
  intros n Hfit Harr. unfold roundRobin.
  eapply ok_bind.
  - apply (deliveries_ok fuel strategies Hfit rngs order), arrival_bound, Harr.
  - intros vs Hvs.
    destruct (Permutation.Permutation_Forall2 Harr Hvs) as (vs' & Hperm & Hvs').
    rewrite (gather_Permutation vs vs' Hperm).
    destruct (gather_seq_ok strategies Hfit (length strategies) 0 vs'
                (replicate (length strategies) 0)) as (wins & Hw & Hg);
      [lia|exact Hvs'| |].
    + repeat split.
      * apply length_replicate.
      * rewrite sumZ_replicate. lia.
      * rewrite get_replicate. lia.
      * rewrite get_replicate. destruct (Nat.ltb_spec x 0); lia.
    + rewrite Hw. cbn [exec_bind ok fst snd].
      destruct Hg as (Hlen & Hsum & _). simpl in Hsum. fold n in Hsum.
      split; [exact Hlen|]. split.
      * rewrite Hsum. pose proof (pairs_even n). unfold gamesPerSeries. lia.
      * fold n. unfold int_mul, int_sub, gamesPerSeries in *.
        assert (0 <= n) by (unfold n; lia).
        rewrite (wrap_id (n - 1)) by (unfold in_int, min_int, max_int in *; lia).
        apply wrap_id. unfold in_int, min_int, max_int in *. lia.
Qed.

(** A source whose cells vary, for running examples. *)
Definition sample_rng (seed : nat) : rng :=
  mkRng (fun i => Z.of_nat i * Z.of_nat i * 7919
                  + Z.of_nat i * Z.of_nat seed + Z.of_nat seed) 0.

(** C10: with a single strategy [roundRobin] returns the vector [[0]] and
    0 games per strategy, without playing a game. *)
Theorem roundRobin_single (fuel : nat) (s : Strategy) (rngs : nat -> rng)
    (order : list nat) :
  arrival 1 order ->
  roundRobin fuel [s] rngs order = Ret ([0], 0).
Proof.
  intros Harr. unfold arrival in Harr. simpl in Harr.
  apply Permutation_singleton_r in Harr. subst order. reflexivity.
Qed.

Lemma roundRobin_single_witness :
  arrival 1 [0%nat] /\
  roundRobin 0 [Random] sample_rng [0%nat] = Ret ([0], 0).
Proof.
  assert (H : arrival 1 [0%nat]) by (unfold arrival; reflexivity).
  split; [exact H|]. apply (roundRobin_single 0 Random sample_rng [0%nat] H).
Defined.

(** ** Reporting *)

Section Report.

Local Open Scope string_scope.

Lemma string_app_assoc (a b c : string) : (a ++ b) ++ c = a ++ (b ++ c).
Proof. induction a as [|x a IH]; simpl; [reflexivity|]. rewrite IH. reflexivity. Qed.

Lemma string_app_nonempty (a b : string) : b <> "" -> a ++ b <> "".
Proof. intros Hb. destruct a; simpl; [exact Hb|discriminate]. Qed.

Lemma ratio_entry_nonempty (val total : Z) : ratio_entry val total <> "".
Proof.
  unfold ratio_entry. repeat (apply string_app_nonempty). discriminate.
Qed.

(** The strings of [entries], each preceded by the separator. *)
Fixpoint separated (entries : list string) : string :=
  match entries with
  | [] => ""
  | e :: rest => ", " ++ e ++ separated rest
  end.

Lemma concat_separated (e : string) (rest : list string) :
  String.concat ", " (e :: rest) = e ++ separated rest.
Proof.
  revert e. induction rest as [|e' rest IH]; intros e.
  - simpl. induction e as [|x e IHe]; simpl; [reflexivity|]. rewrite <- IHe. reflexivity.
  - change (String.concat ", " (e :: e' :: rest))
      with (e ++ ", " ++ String.concat ", " (e' :: rest)).
    rewrite IH. reflexivity.
Qed.

Lemma ratio_loop (total : Z) (vals : list Z) :
  forall s : string, s <> "" ->
    foldl (fun s val =>
             let s := if negb (String.eqb s "") then s ++ ", " else s in
             s ++ ratio_entry val total) s vals
    = s ++ separated (map (fun val => ratio_entry val total) vals).
Proof.
  induction vals as [|v vals IH]; intros s Hs.
  - simpl. induction s as [|x s IHs]; simpl; [reflexivity|].
    destruct s; [reflexivity|]. rewrite <- IHs by discriminate. reflexivity.
  - cbn [foldl map separated].
    destruct (String.eqb_spec s "") as [->|_]; [contradiction|]. simpl negb. cbv iota.
    rewrite IH by (apply string_app_nonempty, ratio_entry_nonempty).
    rewrite !string_app_assoc. reflexivity.
Qed.

Lemma ratioString_join (vals : list Z) :
  ratioString vals =
  String.concat ", " (map (fun val => ratio_entry val (ratio_total vals)) vals).
Proof.
  unfold ratioString. destruct vals as [|v vals]; [reflexivity|].
  set (total := ratio_total (v :: vals)).
  cbn [foldl map]. simpl negb. cbv iota.
  change ("" ++ ratio_entry v total) with (ratio_entry v total).
  rewrite ratio_loop by apply ratio_entry_nonempty.
  symmetry. apply concat_separated.
Qed.

(** C9: [ratioString(1, 2, 3)] is the string of the source comment; for
    every list of values the result is the renderings
    [<val>/<total> (<pct>%)], percentage with one decimal, joined by a
    comma and a space. *)
Theorem ratioString_example :
  ratioString [1; 2; 3]%Z = "1/6 (16.7%), 2/6 (33.3%), 3/6 (50.0%)" /\
  map (fun val => ratio_entry val 6) [1; 2; 3]%Z
    = ["1/6 (16.7%)"; "2/6 (33.3%)"; "3/6 (50.0%)"] /\
  (forall vals : list Z,
     ratioString vals =
     String.concat ", " (map (fun val => ratio_entry val (ratio_total vals)) vals)).
Proof.
  split; [vm_compute; reflexivity|]. split; [vm_compute; reflexivity|].
  exact ratioString_join.
Qed.







End Report.

(** ** Termination of the game loop *)

(** The strategies the program defines. *)
Inductive kind : Type :=
| KStay (k : Z)
| KRandom.

Definition strategy_of (a : kind) : Strategy :=
  match a with
  | KStay k => StayAtK k
  | KRandom => Random
  end.

(** A strategy that does not stay on an empty turn. *)
Definition live (a : kind) : bool :=
  match a with
  | KStay k => 0 <? k
  | KRandom => true
  end.

Definition kind_at (a0 a1 : kind) (c : Z) : kind := if c =? 0 then a0 else a1.

(** The scores a game between these strategies passes through. *)
Definition in_game (s : score) : Prop :=
  0 <= player s <= 99 /\ 0 <= opponent s <= 99 /\ 0 <= thisTurn s <= 105.

(** The points on the table. *)
Definition points (s : score) : Z := player s + opponent s + thisTurn s.

(** A cell on which the die does not show 1 and [Random] does not stay. *)
Definition lucky (c : Z) : bool :=
  negb (c mod 6 =? 0) && negb (2 ^ 52 <? c mod 2 ^ 53).

Definition advance (r : rng) : rng := mkRng (tape r) (S (pos r)).

(** The game after one pass through the loop body, [a] being the kind of
    the active strategy. *)
Definition next_game (a : kind) (g : game) : game :=
  let s := g_s g in
  let c := g_currentPlayer g in
  let stayed r := mkGame (mkScore (opponent s) (player s + thisTurn s) 0) (flip c) r in
  let rolled r :=
    if die r =? 1
    then mkGame (mkScore (opponent s) (player s) 0) (flip c) (advance r)
    else mkGame (mkScore (player s) (opponent s) (thisTurn s + die r)) c (advance r) in
  match a with
  | KStay k => if thisTurn s >=? k then stayed (g_rng g) else rolled (g_rng g)
  | KRandom =>
      if 2 ^ 52 <? tape (g_rng g) (pos (g_rng g)) mod 2 ^ 53
      then stayed (advance (g_rng g))
      else rolled (advance (g_rng g))
  end.

(** [steps n g g']: [n] passes through the loop lead from [g] to [g']. *)
Inductive steps (strategies : list Strategy) : nat -> game -> game -> Prop :=
| steps_O g : steps strategies 0 g g
| steps_S n g g1 g' :
    play_cond g = true ->
    play_body strategies g = Ret g1 ->
    steps strategies n g1 g' ->
    steps strategies (S n) g g'.

Lemma steps_loop (strategies : list Strategy) (n : nat) (g g' : game) :
  steps strategies n g g' ->
  forall f, play_loop (n + f) strategies g = play_loop f strategies g'.
Proof.
  induction 1 as [g|n g g1 g' Hc Hb Hs IH]; intros f; [reflexivity|].
  simpl. rewrite Hc, Hb. simpl. apply IH.
Qed.

Lemma steps_trans (strategies : list Strategy) (n m : nat) (g g1 g2 : game) :
  steps strategies n g g1 -> steps strategies m g1 g2 ->
  steps strategies (n + m) g g2.
Proof.
  induction 1 as [g|n g ga g1 Hc Hb Hs IH]; intros H2; [exact H2|].
  simpl. eapply steps_S; eauto.
Qed.

Lemma play_cond_in_game (g : game) :
  in_game (g_s g) ->
  play_cond g = (player (g_s g) + thisTurn (g_s g) <? 100).
Proof.
  intros (Hp & Ho & Ht). unfold play_cond, win.
  rewrite int_add_exact; [reflexivity|].
  unfold in_int, min_int, max_int. lia.
Qed.

Lemma roll_in_game (s : score) (r : rng) :
  in_game s ->
  roll s r =
  (if die r =? 1
   then (mkScore (opponent s) (player s) 0, true)
   else (mkScore (player s) (opponent s) (thisTurn s + die r), false),
   advance r).
Proof.
  intros (Hp & Ho & Ht). rewrite roll_unfold. unfold roll_outcome.
  pose proof (die_range r) as Hd. f_equal.
  destruct (die r =? 1); [reflexivity|].
  rewrite int_add_exact; [rewrite Z.add_comm; reflexivity|].
  unfold in_int, min_int, max_int. lia.
Qed.

Lemma stay_in_game (s : score) (r : rng) :
  in_game s ->
  stay s r = ((mkScore (opponent s) (player s + thisTurn s) 0, true), r).
Proof.
  intros (Hp & Ho & Ht). unfold stay.
  rewrite int_add_exact; [reflexivity|].
  unfold in_int, min_int, max_int. lia.
Qed.

Section Kinds.

Variables a0 a1 : kind.

Let strategies : list Strategy := [strategy_of a0; strategy_of a1].

Lemma active_kind (c : Z) :
  active (strategy_of a0) (strategy_of a1) c = strategy_of (kind_at a0 a1 c).
Proof. unfold active, kind_at. destruct (c =? 0); reflexivity. Qed.

Lemma play_body_next (g : game) :
  in_game (g_s g) -> role (g_currentPlayer g) ->
  play_body strategies g
  = Ret (next_game (kind_at a0 a1 (g_currentPlayer g)) g).
Proof.
  intros Hin Hc. destruct g as [s c r]. simpl in *.
  unfold play_body, strategies. simpl g_currentPlayer. simpl g_s. simpl g_rng.
  rewrite (index_role _ _ _ Hc), active_kind. cbn [exec_bind].
  destruct (role_flip c Hc) as [Hf _].
  unfold next_game. simpl g_currentPlayer. simpl g_s. simpl g_rng.
  destruct (kind_at a0 a1 c) as [k|]; simpl nextAction.
  - unfold StayAtK_nextAction. destruct (thisTurn s >=? k).
    + rewrite stay_in_game by exact Hin. rewrite Hf. reflexivity.
    + rewrite roll_in_game by exact Hin.
      destruct (die r =? 1); rewrite ?Hf; reflexivity.
  - unfold Random_nextAction, rand_Float64_gt_half, draw. fold (advance r).
    destruct (2 ^ 52 <? tape r (pos r) mod 2 ^ 53).
    + rewrite stay_in_game by exact Hin. rewrite Hf. reflexivity.
    + rewrite roll_in_game by exact Hin.
      destruct (die (advance r) =? 1); rewrite ?Hf; reflexivity.
Qed.

End Kinds.

Lemma die_cell (r : rng) : die r = tape r (pos r) mod 6 + 1.
Proof. reflexivity. Qed.

Lemma lucky_spec (c : Z) :
  lucky c = true -> c mod 6 <> 0 /\ (2 ^ 52 <? c mod 2 ^ 53) = false.
Proof.
  unfold lucky. intros H. apply andb_prop in H. destruct H as [H1 H2].
  apply negb_true_iff in H1, H2. split; [|exact H2].
  apply Z.eqb_neq, H1.
Qed.

(** What one pass through the loop does to a game in progress. *)
Lemma next_game_facts (a : kind) (g : game) :
  in_game (g_s g) -> role (g_currentPlayer g) ->
  player (g_s g) + thisTurn (g_s g) < 100 ->
  let g' := next_game a g in
  in_game (g_s g') /\ role (g_currentPlayer g') /\
  tape (g_rng g') = tape (g_rng g) /\
  (pos (g_rng g) <= pos (g_rng g') <= pos (g_rng g) + 2)%nat /\
  (pos (g_rng g') = pos (g_rng g) ->
     (exists k, a = KStay k /\ k <= thisTurn (g_s g)) /\
     g_currentPlayer g' = flip (g_currentPlayer g) /\
     thisTurn (g_s g') = 0 /\
     points (g_s g') = points (g_s g)) /\
  (lucky (tape (g_rng g) (pos (g_rng g))) = true ->
   lucky (tape (g_rng g) (S (pos (g_rng g)))) = true ->
   pos (g_rng g') <> pos (g_rng g) ->
   points (g_s g) + 2 <= points (g_s g')).
Proof.
  destruct g as [[p o t] c r]. unfold in_game, points. simpl.
  intros (Hp & Ho & Ht) Hc Hlt.
  assert (Hfc : role (flip c)) by (apply role_flip, Hc).
  pose proof (die_range r) as Hd. pose proof (die_range (advance r)) as Hd'.
  unfold next_game. simpl.
  destruct a as [k|].
  - destruct (Z.geb_spec t k) as [Hk|Hk]; simpl.
    + repeat split; try lia; try assumption. exists k. split; [reflexivity|lia].
    + destruct (Z.eqb_spec (die r) 1) as [H1|H1]; simpl.
      * repeat split; try lia; try assumption.
        intros L1 _ _. apply lucky_spec in L1. rewrite die_cell in H1. lia.
      * repeat split; try lia; try assumption.
  - destruct (2 ^ 52 <? tape r (pos r) mod 2 ^ 53) eqn:Eh; simpl.
    + repeat split; try lia; try assumption.
      intros L1 _ _. apply lucky_spec in L1. destruct L1 as [_ L1]. congruence.
    + destruct (Z.eqb_spec (die (advance r)) 1) as [H1|H1]; simpl.
      * repeat split; try lia; try assumption.
        intros _ L2 _. apply lucky_spec in L2. rewrite die_cell in H1.
        simpl in H1. lia.
      * repeat split; try lia; try assumption.
Qed.

(** How many passes in a row can leave the source unread. *)
Definition idle_steps (a0 a1 : kind) (g : game) : Z :=
  let a := kind_at a0 a1 (g_currentPlayer g) in
  let b := kind_at a0 a1 (flip (g_currentPlayer g)) in
  if live a && (thisTurn (g_s g) =? 0) then 0
  else if live b then 1 else 2.

Lemma idle_steps_range (a0 a1 : kind) (g : game) : 0 <= idle_steps a0 a1 g <= 2.
Proof.
  unfold idle_steps.
  destruct (live _ && _); [lia|]. destruct (live _); lia.
Qed.

Lemma idle_steps_decrease (a0 a1 : kind) (g g' : game) (k : Z) :
  live a0 || live a1 = true ->
  role (g_currentPlayer g) ->
  kind_at a0 a1 (g_currentPlayer g) = KStay k -> k <= thisTurn (g_s g) ->
  0 <= thisTurn (g_s g) ->
  g_currentPlayer g' = flip (g_currentPlayer g) ->
  thisTurn (g_s g') = 0 ->
  idle_steps a0 a1 g' < idle_steps a0 a1 g.
Proof.
  intros Hl Hc Ha Hk Ht Hc' Ht'. unfold idle_steps.
  rewrite Hc', Ht', Ha. simpl (0 =? 0). rewrite andb_true_r.
  assert (Hff : flip (flip (g_currentPlayer g)) = g_currentPlayer g)
    by (unfold flip; lia).
  rewrite Hff, Ha.
  assert (Hb : live (KStay k) || live (kind_at a0 a1 (flip (g_currentPlayer g))) = true).
  { rewrite <- Ha. unfold kind_at, flip.
    destruct Hc as [-> | ->]; simpl; [exact Hl|]. rewrite orb_comm. exact Hl. }
  destruct (live (kind_at a0 a1 (flip (g_currentPlayer g)))) eqn:El.
  - destruct (live (KStay k) && (thisTurn (g_s g) =? 0)) eqn:E; [|lia].
    apply andb_prop in E. destruct E as [E1 E2]. simpl in E1.
    apply Z.ltb_lt in E1. apply Z.eqb_eq in E2. lia.
  - rewrite orb_false_r in Hb. rewrite Hb.
    destruct (thisTurn (g_s g) =? 0) eqn:E2; simpl; [|lia].
    simpl in Hb. apply Z.ltb_lt in Hb. apply Z.eqb_eq in E2. lia.
Qed.

Section Liveness.

Variables a0 a1 : kind.
Hypothesis Hlive : live a0 || live a1 = true.

Let strategies : list Strategy := [strategy_of a0; strategy_of a1].

(** Whatever the cells hold, the game ends or reads on: from a game in
    progress the loop exits or reaches the position [P] of the source. *)
Lemma approach (P : nat) (d : nat) :
  forall g : game,
    in_game (g_s g) -> role (g_currentPlayer g) ->
    3 * (Z.of_nat P - Z.of_nat (pos (g_rng g))) + idle_steps a0 a1 g <= Z.of_nat d ->
    (pos (g_rng g) <= P + 1)%nat ->
    exists n g',
      steps strategies n g g' /\
      in_game (g_s g') /\ role (g_currentPlayer g') /\
      tape (g_rng g') = tape (g_rng g) /\
      (play_cond g' = false \/ (P <= pos (g_rng g') <= P + 1)%nat).
Proof using Hlive.
  induction d as [|d IH]; intros g Hin Hc Hm Hpos;
    pose proof (idle_steps_range a0 a1 g) as Hi.
  - exists 0%nat, g. split; [apply steps_O|]. do 3 (split; [easy|]). right. lia.
  - destruct (le_lt_dec P (pos (g_rng g))) as [HP|HP].
    { exists 0%nat, g. split; [apply steps_O|]. do 3 (split; [easy|]). right. lia. }
    destruct (play_cond g) eqn:Ec.
    2:{ exists 0%nat, g. split; [apply steps_O|]. do 3 (split; [easy|]).
        left. exact Ec. }
    assert (Hlt : player (g_s g) + thisTurn (g_s g) < 100)
      by (rewrite play_cond_in_game in Ec by exact Hin; apply Z.ltb_lt, Ec).
    pose proof (play_body_next a0 a1 g Hin Hc) as Hb.
    destruct (next_game_facts (kind_at a0 a1 (g_currentPlayer g)) g Hin Hc Hlt)
      as (Hin' & Hc' & Htape & Hp' & Hidle & _).
    set (g1 := next_game (kind_at a0 a1 (g_currentPlayer g)) g) in *.
    pose proof (idle_steps_range a0 a1 g1) as Hi1.
    destruct (IH g1 Hin' Hc') as (n & g' & Hs & Hin2 & Hc2 & Ht2 & Hend).
    + destruct (decide (pos (g_rng g1) = pos (g_rng g))) as [He|He].
      * destruct (Hidle He) as ((k & Hk & Hkt) & Hfl & Ht0 & _).
        pose proof (idle_steps_decrease a0 a1 g g1 k Hlive Hc Hk Hkt
                      (proj1 (proj2 (proj2 Hin))) Hfl Ht0).
        lia.
      * lia.
    + lia.
    + exists (S n), g'. split; [eapply steps_S; eauto|].
      do 2 (split; [assumption|]). split; [congruence|exact Hend].
Qed.

(** On lucky cells the points on the table grow until the loop exits. *)
Lemma finish (d : nat) :
  forall g : game,
    in_game (g_s g) -> role (g_currentPlayer g) ->
    3 * (200 - points (g_s g)) + idle_steps a0 a1 g <= Z.of_nat d ->
    (forall i : nat,
       (pos (g_rng g) <= i)%nat ->
       Z.of_nat i < Z.of_nat (pos (g_rng g)) + 2 * (200 - points (g_s g)) ->
       lucky (tape (g_rng g) i) = true) ->
    exists n g',
      steps strategies n g g' /\ role (g_currentPlayer g') /\
      play_cond g' = false.
Proof using Hlive.
  induction d as [|d IH]; intros g Hin Hc Hm Hwin;
    pose proof (idle_steps_range a0 a1 g) as Hi;
    destruct (play_cond g) eqn:Ec;
    try (exists 0%nat, g; split; [apply steps_O|split; assumption]);
    assert (Hlt : player (g_s g) + thisTurn (g_s g) < 100)
      by (rewrite play_cond_in_game in Ec by exact Hin; apply Z.ltb_lt, Ec);
    assert (Hpts : points (g_s g) <= 198)
      by (unfold points; destruct Hin as (? & ? & ?); lia).
  - lia.
  - pose proof (play_body_next a0 a1 g Hin Hc) as Hb.
    destruct (next_game_facts (kind_at a0 a1 (g_currentPlayer g)) g Hin Hc Hlt)
      as (Hin' & Hc' & Htape & Hp' & Hidle & Hluck).
    set (g1 := next_game (kind_at a0 a1 (g_currentPlayer g)) g) in *.
    pose proof (idle_steps_range a0 a1 g1) as Hi1.
    assert (Hstep :
      (pos (g_rng g1) = pos (g_rng g) /\ points (g_s g1) = points (g_s g) /\
       idle_steps a0 a1 g1 < idle_steps a0 a1 g) \/
      points (g_s g) + 2 <= points (g_s g1)).
    { destruct (decide (pos (g_rng g1) = pos (g_rng g))) as [He|He].
      - left. destruct (Hidle He) as ((k & Hk & Hkt) & Hfl & Ht0 & Hpt).
        repeat split; try assumption.
        apply (idle_steps_decrease a0 a1 g g1 k Hlive Hc Hk Hkt
                 (proj1 (proj2 (proj2 Hin))) Hfl Ht0).
      - right. apply Hluck; [apply Hwin; lia|apply Hwin; lia|exact He]. }
    destruct (IH g1 Hin' Hc') as (n & g' & Hs & Hc2 & Hend).
    + destruct Hstep as [(_ & Hpt & Hlt') | Hgrow]; lia.
    + intros i Hi0 Hi2. rewrite Htape. apply Hwin; [lia|].
      destruct Hstep as [(He & Hpt & _) | Hgrow]; lia.
    + exists (S n), g'. split; [eapply steps_S; eauto|split; assumption].
Qed.

(** A source with 401 lucky cells in a row from [P] on ends the game. *)
Lemma play_ends (r : rng) (P : nat) :
  (pos r <= P)%nat ->
  (forall i : nat, (P <= i < P + 401)%nat -> lucky (tape r i) = true) ->
  exists fuel w rf,
    play fuel (strategy_of a0) (strategy_of a1) r = Ret (w, rf) /\ role w.
Proof using Hlive.
  intros HP Hrun. unfold play.
  pose proof (first_player_role r) as Hc.
  rewrite (surjective_pairing (rand_Intn 2 r)). rewrite rand_Intn_rng.
  set (c := (rand_Intn 2 r).1) in *.
  set (g0 := mkGame (mkScore 0 0 0) c (mkRng (tape r) (S (pos r)))).
  assert (Hin0 : in_game (g_s g0)) by (unfold in_game; simpl; lia).
  pose proof (idle_steps_range a0 a1 g0) as Hi0.
  destruct (approach P (Z.to_nat (3 * (Z.of_nat P - Z.of_nat (S (pos r))) + 2))
              g0 Hin0 Hc) as (n1 & g1 & Hs1 & Hin1 & Hc1 & Ht1 & Hend1).
  { simpl. lia. }
  { simpl. lia. }
  assert (Hfin : exists n g', steps strategies n g1 g' /\
                   role (g_currentPlayer g') /\ play_cond g' = false).
  { destruct Hend1 as [Hend1|Hend1].
    - exists 0%nat, g1. split; [apply steps_O|split; assumption].
    - pose proof (idle_steps_range a0 a1 g1) as Hi1.
      apply (finish (Z.to_nat (3 * (200 - points (g_s g1)) + 2)) g1 Hin1 Hc1).
      + unfold points, in_game in *. lia.
      + intros i Hi Hi'. rewrite Ht1. simpl. apply Hrun.
        unfold points, in_game in *. lia. }
  destruct Hfin as (n2 & g2 & Hs2 & Hc2 & Hend2).
  exists (n1 + n2 + 1)%nat, (g_currentPlayer g2), (g_rng g2).
  split; [|exact Hc2].
  fold strategies.
  rewrite (steps_loop strategies (n1 + n2) g0 g2 (steps_trans _ _ _ _ _ _ Hs1 Hs2)).
  simpl. rewrite Hend2. reflexivity.
Qed.

End Liveness.

(** On cells that hold 0 every roll shows 1 and [Random] rolls: the
    score stays at (0,0,0) and the fuel runs out. *)
Lemma unlucky_loop (a0 a1 : kind) (n : nat) :
  forall (c : Z) (r : rng),
    role c ->
    (forall i : nat, (pos r <= i < pos r + 2 * n)%nat -> tape r i = 0) ->
    play_loop n [strategy_of a0; strategy_of a1] (mkGame (mkScore 0 0 0) c r)
    = OutOfFuel.
Proof.
  induction n as [|n IH]; intros c r Hc Hz; [reflexivity|].
  assert (Hin : in_game (mkScore 0 0 0)) by (unfold in_game; simpl; lia).
  cbn [play_loop]. rewrite play_cond_in_game by exact Hin.
  simpl (_ <? _). cbv iota.
  rewrite (play_body_next a0 a1 (mkGame (mkScore 0 0 0) c r) Hin Hc).
  cbn [exec_bind]. simpl g_currentPlayer.
  assert (Hfc : role (flip c)) by (apply role_flip, Hc).
  assert (H0 : tape r (pos r) = 0) by (apply Hz; lia).
  assert (H1 : tape r (S (pos r)) = 0) by (apply Hz; lia).
  unfold next_game. simpl.
  destruct (kind_at a0 a1 c) as [k|].
  - destruct (0 >=? k).
    + apply IH; [exact Hfc|]. intros i Hi. apply Hz. lia.
    + rewrite die_cell, H0. simpl.
      apply IH; [exact Hfc|]. simpl. intros i Hi. apply Hz. lia.
  - rewrite H0. simpl (2 ^ 52 <? _). cbv iota.
    rewrite die_cell. simpl. rewrite H1. simpl.
    apply IH; [exact Hfc|]. simpl. intros i Hi. apply Hz. lia.
Qed.

(** Two [StayAtK] with thresholds at most 0 stay forever on (0,0,0). *)
Lemma dead_loop (k0 k1 : Z) (fuel : nat) :
  k0 <= 0 -> k1 <= 0 ->
  forall (c : Z) (r : rng),
    role c ->
    play_loop fuel [StayAtK k0; StayAtK k1] (mkGame (mkScore 0 0 0) c r)
    = OutOfFuel.
Proof.
  intros H0 H1. induction fuel as [|fuel IH]; intros c r Hc; [reflexivity|].
  assert (Hin : in_game (mkScore 0 0 0)) by (unfold in_game; simpl; lia).
  cbn [play_loop]. rewrite play_cond_in_game by exact Hin.
  simpl (_ <? _). cbv iota.
  change [StayAtK k0; StayAtK k1]
    with [strategy_of (KStay k0); strategy_of (KStay k1)].
  rewrite (play_body_next (KStay k0) (KStay k1) (mkGame (mkScore 0 0 0) c r) Hin Hc).
  cbn [exec_bind]. simpl g_currentPlayer.
  assert (Hfc : role (flip c)) by (apply role_flip, Hc).
  unfold next_game, kind_at. simpl.
  destruct Hc as [-> | ->]; simpl.
  - destruct (Z.geb_spec 0 k0); [|lia]. apply IH, Hfc.
  - destruct (Z.geb_spec 0 k1); [|lia]. apply IH, Hfc.
Qed.

Lemma play_dead (k0 k1 : Z) (fuel : nat) (r : rng) :
  k0 <= 0 -> k1 <= 0 ->
  play fuel (StayAtK k0) (StayAtK k1) r = OutOfFuel.
Proof.
  intros H0 H1. unfold play.
  pose proof (first_player_role r) as Hc.
  destruct (rand_Intn 2 r) as [c r1]. apply dead_loop; assumption.
Qed.

(** A source of [2 * N + 1] cells holding 0 followed by cells holding 1. *)
Definition slow_rng (N : nat) : rng :=
  mkRng (fun i => if (i <? 2 * N + 1)%nat then 0 else 1) 0.

(** Two strategies of the program that are not both [StayAtK] with a
    threshold at most 0: one of them rolls on an empty turn or is
    [Random]. *)
Lemma not_both_dead_live (a0 a1 : kind) :
  ~ (exists k0 k1 : Z, a0 = KStay k0 /\ a1 = KStay k1 /\ k0 <= 0 /\ k1 <= 0) ->
  live a0 || live a1 = true.
Proof.
  intros Hnot. destruct a0 as [k0|], a1 as [k1|]; simpl; try reflexivity.
  - destruct (Z.ltb_spec 0 k0) as [H0|H0]; [reflexivity|].
    destruct (Z.ltb_spec 0 k1) as [H1|H1]; [reflexivity|].
    exfalso. apply Hnot. exists k0, k1. repeat split; assumption.
  - apply orb_true_r.
Qed.

(** C3, amended: let the two strategies be among those the program
    defines, [StayAtK(k)] for any [k] or [Random], and not both [StayAtK]
    with [k <= 0].  Then [play] returns a winner, 0 or 1, on every
    sequence of draws that holds, somewhere, 401 cells in a row on which
    the die does not show 1 and [Random] does not stay; and no number of
    iterations bounds the game: for every [N] there is a sequence of draws
    on which [play] is still running after [N] iterations and returns
    later. *)
Theorem play_terminates (a0 a1 : kind) :
  ~ (exists k0 k1 : Z, a0 = KStay k0 /\ a1 = KStay k1 /\ k0 <= 0 /\ k1 <= 0) ->
  (forall (r : rng) (P : nat),
     (pos r <= P)%nat ->
     (forall i : nat, (P <= i < P + 401)%nat -> lucky (tape r i) = true) ->
     exists fuel w rf,
       play fuel (strategy_of a0) (strategy_of a1) r = Ret (w, rf) /\
       (w = 0 \/ w = 1)) /\
  (forall N : nat,
     exists r,
       play N (strategy_of a0) (strategy_of a1) r = OutOfFuel /\
       exists fuel w rf,
         play fuel (strategy_of a0) (strategy_of a1) r = Ret (w, rf)).
Proof.
  intros Hnot. pose proof (not_both_dead_live a0 a1 Hnot) as Hlive. split.
  - intros r P HP Hrun. apply (play_ends a0 a1 Hlive r P HP Hrun).
  - intros N. exists (slow_rng N). split.
    + assert (E : rand_Intn 2 (slow_rng N) = (0, mkRng (tape (slow_rng N)) 1)).
      { unfold rand_Intn, draw, slow_rng. simpl.
        destruct (Nat.ltb_spec 0 (N + (N + 0) + 1)); [reflexivity|lia]. }
      unfold play. rewrite E.
      apply unlucky_loop; [left; reflexivity|].
      simpl. intros i Hi.
      destruct (Nat.ltb_spec i (N + (N + 0) + 1)); [reflexivity|lia].
    + destruct (play_ends a0 a1 Hlive (slow_rng N) (2 * N + 1)) as (fuel & w & rf & H & _).
      * simpl. lia.
      * intros i Hi. simpl.
        destruct (Nat.ltb_spec i (N + (N + 0) + 1)); [lia|reflexivity].
      * exists fuel, w, rf. exact H.
Qed.

Lemma play_terminates_witness :
  ~ (exists k0 k1 : Z,
       KStay 20 = KStay k0 /\ KStay 0 = KStay k1 /\ k0 <= 0 /\ k1 <= 0) /\
  exists fuel w rf,
    play fuel (StayAtK 20) (StayAtK 0) (mkRng (fun _ => 1) 0) = Ret (w, rf) /\
    (w = 0 \/ w = 1).
Proof.
  assert (H : ~ (exists k0 k1 : Z,
                   KStay 20 = KStay k0 /\ KStay 0 = KStay k1 /\ k0 <= 0 /\ k1 <= 0)).
  { intros (k0 & k1 & E0 & _ & H0 & _). injection E0 as <-. lia. }
  split; [exact H|].
  apply (proj1 (play_terminates (KStay 20) (KStay 0) H) (mkRng (fun _ => 1) 0) 0%nat).
  - simpl. lia.
  - intros i _. reflexivity.
Defined.

(** C3 as stated fails: between two [StayAtK(0)] every action is [stay]
    on the score (0,0,0), and [play] returns on no sequence of draws. *)
Lemma play_never_returns :
  ~ exists fuel w rf,
      play fuel (StayAtK 0) (StayAtK 0) (mkRng (fun _ => 5) 0) = Ret (w, rf).
Proof.
  intros (fuel & w & rf & H).
  rewrite (play_dead 0 0 fuel) in H by lia. discriminate.
Qed.

(** * The program *)

(** ** [main] *)

(** [l[k] = x] on a slice whose entries may still be nil. *)
Definition assign {A : Type} (l : list (option A)) (k : Z) (x : A)
  : exec (list (option A)) :=
  if (0 <=? k) && (k <? Z.of_nat (length l))
  then Ret (<[Z.to_nat k := Some x]> l)
  else Panic.

(** The loop [for k = 0; k < win; k++] of [main], entered with the given
    value of [k]; [count] bounds the iterations left. *)
Fixpoint main_fill (count : nat) (k : Z) (strategies : list (option Strategy))
  : exec (Z * list (option Strategy)) :=
  if k <? win
  then match count with
       | O => OutOfFuel
       | S count' =>
           let* strategies' := assign strategies k (StayAtK (int_add k 1)) in
           main_fill count' (int_add k 1) strategies'
       end
  else Ret (k, strategies).

(** The slice handed to [roundRobin]: a nil entry would make the first
    method call on it panic. *)
Fixpoint non_nil {A : Type} (l : list (option A)) : exec (list A) :=
  match l with
  | [] => Ret []
  | None :: _ => Panic
  | Some x :: l' => let* xs := non_nil l' in Ret (x :: xs)
  end.

(** The slice [strategies] of [main] when [roundRobin] is called. *)
Definition main_strategies : exec (list Strategy) :=
  let strategies := replicate (Z.to_nat (int_add win 1)) None in
  let* (k, strategies) := main_fill (Z.to_nat win) 0 strategies in
  let* strategies := assign strategies k Random in
  non_nil strategies.

Definition newline : string := String (ascii_of_nat 10) EmptyString.

(** [fmt.Printf("Wins, losses %v: %s\n", strategies[i], ratioString(...))] *)
Definition report_line (s : Strategy) (wins games : Z) : string :=
  ("Wins, losses " ++ Strategy_String s ++ ": "
   ++ ratioString [wins; int_sub games wins] ++ newline)%string.

(** The loop [for i := range strategies] of [main]: what it prints for the
    indices [is]. *)
Fixpoint main_report (strategies : list Strategy) (wins : list Z) (games : Z)
    (indices : list nat) : exec string :=
  match indices with
  | [] => Ret EmptyString
  | i :: rest =>
      let* s := index strategies (Z.of_nat i) in
      let* w := index wins (Z.of_nat i) in
      let* out := main_report strategies wins games rest in
      Ret (report_line s w games ++ out)%string
  end.

(** [main]: the text written to standard output. *)
Definition main (fuel : nat) (rngs : nat -> rng) (order : list nat)
  : exec string :=
  let* strategies := main_strategies in
  let* (wins, games) := roundRobin fuel strategies rngs order in
  main_report strategies wins games (seq 0 (length strategies)).

(** * Further properties *)

From Stdlib Require DecimalZ DecimalPos.

(** ** Labels *)

Lemma itoa_read_back (z : Z) :
  option_map Z.of_int (NilZero.int_of_string (itoa z)) = Some z.
Proof.
  unfold itoa. rewrite NilZero.isi.
  - simpl. f_equal. apply DecimalZ.of_to.
  - destruct z; simpl; try discriminate.
    intros H. injection H as H. revert H. apply DecimalPos.Unsigned.to_uint_nonnil.
  - destruct z; simpl; try discriminate.
    intros H. injection H as H. revert H. apply DecimalPos.Unsigned.to_uint_nonnil.
Qed.

Lemma itoa_inj (a b : Z) : itoa a = itoa b -> a = b.
Proof.
  intros H. pose proof (itoa_read_back a) as Ha. rewrite H, itoa_read_back in Ha.
  congruence.
Qed.

Lemma StayAtK_String_inj (k k' : Z) :
  StayAtK_String k = StayAtK_String k' <-> k = k'.
Proof.
  split; [|intros ->; reflexivity].
  unfold StayAtK_String. simpl. intros H. injection H as H. apply itoa_inj, H.
Qed.

(** The threshold can be read back from the label of a [StayAtK]: labels
    of different thresholds differ, and none is the label of [Random]. *)
Theorem StayAtK_String_identifies (k k' : Z) :
  (StayAtK_String k = StayAtK_String k' <-> k = k') /\
  option_map Z.of_int
    (NilZero.int_of_string (String.substring 8 (String.length (StayAtK_String k) - 8)
                              (StayAtK_String k))) = Some k /\
  StayAtK_String k <> Random_String.
Proof.
  split; [|split].
  - split; [|intros ->; reflexivity].
    unfold StayAtK_String. simpl. intros H. injection H as H. apply itoa_inj, H.
  - unfold StayAtK_String. simpl String.length. simpl String.substring.
    rewrite Nat.sub_0_r.
    replace (String.substring 0 (String.length (itoa k)) (itoa k)) with (itoa k).
    + apply itoa_read_back.
    + generalize (itoa k). intros s. induction s as [|c s IH]; simpl; [reflexivity|].
      rewrite <- IH. reflexivity.
  - unfold StayAtK_String, Random_String. simpl. discriminate.
Qed.

(** ** Points *)

(** As long as no sum leaves the range of [int], [stay] moves the turn
    points to the bank and keeps the points on the table; a roll of 1
    takes exactly the turn points off the table, any other roll adds the
    face of the die; the banked scores are those before, swapped exactly
    when the turn ends. *)
Theorem actions_account (s : score) (r : rng) :
  in_int (player s + thisTurn s) ->
  in_int (thisTurn s + die r) ->
  points (stay s r).1.1 = points s /\
  (die r = 1 -> points (roll s r).1.1 = points s - thisTurn s) /\
  (die r <> 1 -> points (roll s r).1.1 = points s + die r) /\
  ((roll s r).1.2 = true <-> die r = 1) /\
  (if (roll s r).1.2
   then player (roll s r).1.1 = opponent s /\ opponent (roll s r).1.1 = player s
   else player (roll s r).1.1 = player s /\ opponent (roll s r).1.1 = opponent s).
Proof.
  intros Hs Hr. rewrite roll_unfold. unfold roll_outcome, points. simpl.
  rewrite (int_add_exact (player s) (thisTurn s)) by exact Hs.
  split; [lia|].
  destruct (Z.eqb_spec (die r) 1) as [H1|H1]; simpl.
  - repeat split; try lia; try reflexivity; intros; congruence.
  - replace (int_add (die r) (thisTurn s)) with (thisTurn s + die r)
      by (unfold int_add; rewrite (Z.add_comm (die r)); symmetry; apply wrap_id, Hr).
    repeat split; try lia; try reflexivity; intros; try congruence; discriminate.
Qed.

Lemma actions_account_witness :
  in_int (player (mkScore 30 40 12) + thisTurn (mkScore 30 40 12)) /\
  in_int (thisTurn (mkScore 30 40 12) + die (mkRng (fun _ => 4) 0)) /\
  points (stay (mkScore 30 40 12) (mkRng (fun _ => 4) 0)).1.1 = 82.
Proof.
  assert (H1 : in_int (player (mkScore 30 40 12) + thisTurn (mkScore 30 40 12)))
    by (vm_compute; split; discriminate).
  assert (H2 : in_int (thisTurn (mkScore 30 40 12) + die (mkRng (fun _ => 4) 0)))
    by (vm_compute; split; discriminate).
  split; [exact H1|]. split; [exact H2|].
  apply (proj1 (actions_account (mkScore 30 40 12) (mkRng (fun _ => 4) 0) H1 H2)).
Defined.

(** ** The order of the two players *)

(** The result of a call with the winner's index replaced. *)
Definition map_winner (f : Z -> Z) (m : exec (Z * rng)) : exec (Z * rng) :=
  match m with
  | Ret (w, r) => Ret (f w, r)
  | Panic => Panic
  | OutOfFuel => OutOfFuel
  end.

Lemma play_loop_swap (strategy0 strategy1 : Strategy) (fuel : nat) :
  forall (s : score) (c : Z) (r : rng),
    role c ->
    play_loop fuel [strategy1; strategy0] (mkGame s (flip c) r)
    = map_winner flip (play_loop fuel [strategy0; strategy1] (mkGame s c r)).
Proof.
  induction fuel as [|fuel IH]; intros s c r Hc; [reflexivity|].
  cbn [play_loop]. unfold play_cond. simpl g_s.
  destruct (int_add (player s) (thisTurn s) <? win); [|reflexivity].
  destruct (role_flip c Hc) as [Hf Hfc].
  destruct (role_flip (flip c) Hfc) as [Hff _].
  unfold play_body. simpl g_currentPlayer. simpl g_s. simpl g_rng.
  rewrite (index_role strategy0 strategy1 c Hc).
  rewrite (index_role strategy1 strategy0 (flip c) Hfc). cbn [exec_bind].
  assert (Ha : active strategy1 strategy0 (flip c) = active strategy0 strategy1 c)
    by (destruct Hc as [-> | ->]; reflexivity).
  rewrite Ha.
  destruct (nextAction (active strategy0 strategy1 c) s r) as [act r1].
  destruct (act s r1) as [[s' over] r2]. cbn [exec_bind].
  rewrite Hf, Hff. destruct over.
  - apply (IH s' (flip c) r2 Hfc).
  - apply (IH s' c r2 Hc).
Qed.

(** Exchanging the two strategies exchanges the roles: the game that
    [play(strategy1, strategy0)] runs when its first draw is [c] is the
    game of [play(strategy0, strategy1)] started by the other role, with
    the other index as winner and the same draws consumed. *)
Theorem play_exchange (strategy0 strategy1 : Strategy) (fuel : nat)
    (s : score) (c : Z) (r : rng) :
  c = 0 \/ c = 1 ->
  play_loop fuel [strategy1; strategy0] (mkGame s (1 - c) r)
  = map_winner (fun w => 1 - w)
      (play_loop fuel [strategy0; strategy1] (mkGame s c r)).
Proof. intros Hc. apply (play_loop_swap strategy0 strategy1 fuel s c r Hc). Qed.

Lemma play_exchange_witness :
  (0 = 0 \/ 0 = 1) /\
  play_loop 70 [Random; StayAtK 20] (mkGame (mkScore 0 0 0) 1 (mkRng (fun _ => 1) 0))
  = Ret (0, mkRng (fun _ => 1) 110).
Proof.
  assert (H : 0 = 0 \/ 0 = 1) by (left; reflexivity).
  split; [exact H|].
  change 1 with (1 - 0) at 1.
  rewrite (play_exchange (StayAtK 20) Random 70 (mkScore 0 0 0) 0
             (mkRng (fun _ => 1) 0) H).
  vm_compute. reflexivity.
Defined.

(** ** The scores of a game *)

(** A score of a game in progress or just decided: banked scores below
    100, at most 105 for the active player with the turn points, and
    turn points on the table when the threshold is reached. *)
Definition at_table (s : score) : Prop :=
  in_game s /\
  player s + thisTurn s <= 105 /\
  (100 <= player s + thisTurn s -> 2 <= thisTurn s).

Lemma next_game_at_table (a : kind) (g : game) :
  at_table (g_s g) ->
  player (g_s g) + thisTurn (g_s g) < 100 ->
  at_table (g_s (next_game a g)).
Proof.
  destruct g as [[p o t] c r]. unfold at_table, in_game. simpl.
  intros ((Hp & Ho & Ht) & H105 & _) Hlt.
  pose proof (die_range r) as Hd. pose proof (die_range (advance r)) as Hd'.
  unfold next_game. simpl.
  destruct a as [k|].
  - destruct (t >=? k); simpl; [lia|].
    destruct (die r =? 1) eqn:E; simpl; [lia|].
    apply Z.eqb_neq in E. lia.
  - destruct (2 ^ 52 <? tape r (pos r) mod 2 ^ 53); simpl; [lia|].
    destruct (die (advance r) =? 1) eqn:E; simpl; [lia|].
    apply Z.eqb_neq in E. lia.
Qed.

Lemma steps_at_table (a0 a1 : kind) (n : nat) (g g' : game) :
  steps [strategy_of a0; strategy_of a1] n g g' ->
  at_table (g_s g) -> role (g_currentPlayer g) ->
  at_table (g_s g') /\ role (g_currentPlayer g').
Proof.
  induction 1 as [g|n g g1 g' Hc Hb Hs IH]; intros Hat Hr; [split; assumption|].
  destruct Hat as (Hin & Hat).
  rewrite (play_body_next a0 a1 g Hin Hr) in Hb. injection Hb as <-.
  assert (Hlt : player (g_s g) + thisTurn (g_s g) < 100)
    by (rewrite play_cond_in_game in Hc by exact Hin; apply Z.ltb_lt, Hc).
  apply IH.
  - apply next_game_at_table; [split; assumption|exact Hlt].
  - apply (next_game_facts _ g Hin Hr Hlt).
Qed.

Lemma play_loop_steps (strategies : list Strategy) (fuel : nat) :
  forall (g : game) (w : Z) (rf : rng),
    play_loop fuel strategies g = Ret (w, rf) ->
    exists n g',
      steps strategies n g g' /\ play_cond g' = false /\
      w = g_currentPlayer g' /\ rf = g_rng g'.
Proof.
  induction fuel as [|fuel IH]; intros g w rf H; [discriminate|].
  cbn [play_loop] in H. destruct (play_cond g) eqn:Ec.
  - destruct (play_body strategies g) as [g1| |] eqn:Eb; try discriminate.
    cbn [exec_bind] in H.
    destruct (IH g1 w rf H) as (n & g' & Hs & Hc & Hw & Hr).
    exists (S n), g'. split; [eapply steps_S; eauto|]. auto.
  - injection H as <- <-. exists 0%nat, g. split; [apply steps_O|]. auto.
Qed.

(** In a game between strategies of the program every score the loop
    passes through has banked scores in 0..99 and turn points in 0..105,
    so no addition overflows; and when [play] returns, the loop has left
    on a score where the winner holds between 100 and 105 points with the
    turn points, at least 2 of them on the table and fewer than 100
    banked: a game is never decided by staying. *)
Theorem play_scores (a0 a1 : kind) (fuel : nat) (r : rng) :
  let g0 := mkGame (mkScore 0 0 0) (rand_Intn 2 r).1 (rand_Intn 2 r).2 in
  (forall n g, steps [strategy_of a0; strategy_of a1] n g0 g -> in_game (g_s g)) /\
  (forall w rf,
     play fuel (strategy_of a0) (strategy_of a1) r = Ret (w, rf) ->
     exists n g,
       steps [strategy_of a0; strategy_of a1] n g0 g /\
       w = g_currentPlayer g /\ rf = g_rng g /\
       100 <= player (g_s g) + thisTurn (g_s g) <= 105 /\
       2 <= thisTurn (g_s g) /\
       0 <= player (g_s g) <= 99 /\ 0 <= opponent (g_s g) <= 99).
Proof.
  intros g0.
  assert (Hat0 : at_table (g_s g0)) by (unfold at_table, in_game; simpl; lia).
  assert (Hr0 : role (g_currentPlayer g0)) by apply first_player_role.
  split.
  - intros n g Hs. apply (steps_at_table a0 a1 n g0 g Hs Hat0 Hr0).
  - intros w rf H. unfold play in H.
    rewrite (surjective_pairing (rand_Intn 2 r)) in H. fold g0 in H.
    destruct (play_loop_steps _ fuel g0 w rf H) as (n & g & Hs & Hc & Hw & Hrf).
    destruct (steps_at_table a0 a1 n g0 g Hs Hat0 Hr0) as ((Hin & H105 & H2) & _).
    rewrite play_cond_in_game in Hc by exact Hin. apply Z.ltb_ge in Hc.
    exists n, g. unfold in_game in Hin. repeat split; try assumption; try lia.
Qed.

(** Two [StayAtK] with thresholds at most 0 never finish a game: whatever
    the draws and however long the loop runs, [play] has not returned, the
    score is still (0,0,0) and no draw has been read after the first. *)
Theorem play_stalls (k0 k1 : Z) (r : rng) :
  k0 <= 0 -> k1 <= 0 ->
  (forall fuel, play fuel (StayAtK k0) (StayAtK k1) r = OutOfFuel) /\
  (forall n g,
     steps [StayAtK k0; StayAtK k1] n
       (mkGame (mkScore 0 0 0) (rand_Intn 2 r).1 (rand_Intn 2 r).2) g ->
     g_s g = mkScore 0 0 0 /\ g_rng g = (rand_Intn 2 r).2).
Proof.
  intros H0 H1. split; [intros fuel; apply play_dead; assumption|].
  pose proof (first_player_role r) as Hc.
  generalize dependent ((rand_Intn 2 r).1). generalize ((rand_Intn 2 r).2).
  intros r1 c Hc n g Hs.
  remember (mkGame (mkScore 0 0 0) c r1) as g0 eqn:Eg.
  assert (Hinv : g_s g0 = mkScore 0 0 0 /\ g_rng g0 = r1 /\ role (g_currentPlayer g0))
    by (subst g0; auto).
  clear Eg c Hc. revert Hinv.
  induction Hs as [g|n g g1 g' Hcond Hb Hs IH]; intros (Hs0 & Hr & Hc); [auto|].
  apply IH.
  assert (Hin : in_game (g_s g)) by (rewrite Hs0; unfold in_game; simpl; lia).
  change [StayAtK k0; StayAtK k1]
    with [strategy_of (KStay k0); strategy_of (KStay k1)] in Hb.
  rewrite (play_body_next (KStay k0) (KStay k1) g Hin Hc) in Hb.
  injection Hb as <-. destruct g as [s c r0]. simpl in *. subst s r0.
  unfold next_game, kind_at. simpl.
  destruct Hc as [-> | ->]; simpl.
  - destruct (Z.geb_spec 0 k0); [|lia]. simpl. repeat split. right. reflexivity.
  - destruct (Z.geb_spec 0 k1); [|lia]. simpl. repeat split. left. reflexivity.
Qed.

Lemma play_stalls_witness :
  -3 <= 0 /\ 0 <= 0 /\
  play 1000 (StayAtK (-3)) (StayAtK 0) (sample_rng 7) = OutOfFuel.
Proof.
  assert (H0 : -3 <= 0) by lia. assert (H1 : 0 <= 0) by lia.
  split; [exact H0|]. split; [exact H1|].
  apply (proj1 (play_stalls (-3) 0 (sample_rng 7) H0 H1) 1000%nat).
Defined.

(** ** Series, workers and the receiving loop *)

(** A series between [i] and [j] does not panic; when it is over, the
    two entries [i] and [j] of the vector have grown, together by exactly
    [gamesPerSeries], and no other entry has changed. *)
Theorem series_credit (fuel : nat) (strategies : list Strategy) (i j : nat)
    (winCount : list Z) (r : rng) :
  i <> j ->
  (i < length strategies)%nat -> (j < length strategies)%nat ->
  length winCount = length strategies ->
  0 <= get winCount i <= max_int - gamesPerSeries ->
  0 <= get winCount j <= max_int - gamesPerSeries ->
  ok (fun res =>
        length res.1 = length winCount /\
        get winCount i <= get res.1 i /\
        get winCount j <= get res.1 j /\
        get res.1 i + get res.1 j
          = get winCount i + get winCount j + gamesPerSeries /\
        (forall x, x <> i -> x <> j -> get res.1 x = get winCount x))
     (series fuel strategies i j (Z.to_nat gamesPerSeries) winCount r).
Proof.
  intros Hij Hi Hj Hlen Hwi Hwj.
  eapply ok_weaken.
  - apply (series_ok fuel strategies i j (Z.to_nat gamesPerSeries) winCount r);
      try assumption;
      change (Z.of_nat (Z.to_nat gamesPerSeries)) with 10;
      unfold gamesPerSeries, min_int, max_int in *; lia.
  - intros [w' r'] [Hlen' (a & b & Ha & Hb & Hab & Hgi & Hgj & Hgo & _)].
    change (Z.of_nat (Z.to_nat gamesPerSeries)) with 10 in Hab.
    simpl in *. unfold gamesPerSeries. repeat split; try lia. exact Hgo.
Qed.

Lemma series_credit_witness :
  ok (fun res => get res.1 0 + get res.1 1 = 10)
     (series 60 [StayAtK 20; Random] 0 1 (Z.to_nat gamesPerSeries) [0; 0]
        (sample_rng 3)).
Proof.
  eapply ok_weaken.
  - apply (series_credit 60 [StayAtK 20; Random] 0 1 [0; 0] (sample_rng 3));
      try (simpl; lia); try discriminate;
      (vm_compute; split; discriminate).
  - intros res (_ & _ & _ & H & _). exact H.
Defined.

(** The vector a worker sends: one entry per strategy, nothing credited
    below its own index, at most [gamesPerSeries] wins for each opponent
    above it, and [gamesPerSeries] wins for each of its pairings in all.
    The worker of the last index plays nothing and sends zeros. *)
Theorem worker_sends (fuel : nat) (strategies : list Strategy) (i : nat) (r : rng) :
  let n := length strategies in
  gamesPerSeries * (Z.of_nat n - 1) <= max_int ->
  (i < n)%nat ->
  ok (fun v =>
        length v = n /\
        (forall x, (x < i)%nat -> get v x = 0) /\
        (forall x, (i < x)%nat -> 0 <= get v x <= gamesPerSeries) /\
        0 <= get v i <= gamesPerSeries * (Z.of_nat n - 1 - Z.of_nat i) /\
        sumZ v = gamesPerSeries * (Z.of_nat n - 1 - Z.of_nat i))
     (worker fuel strategies i r) /\
  (S i = n -> worker fuel strategies i r = Ret (replicate n 0)).
Proof.
  intros n Hfit Hi. split.
  - eapply ok_weaken; [apply (worker_ok fuel strategies Hfit i r Hi)|].
    intros v (Hlen & Hb & Hsum). fold n in Hb, Hsum.
    assert (Hbi : 0 <= get v i <= 10 * (Z.of_nat n - 1 - Z.of_nat i)).
    { pose proof (Hb i) as Hx. unfold worker_bound in Hx.
      destruct (Nat.ltb_spec i i); [lia|]. destruct (Nat.eqb_spec i i); [|lia].
      fold n in Hx. exact Hx. }
    unfold gamesPerSeries.
    split; [exact Hlen|]. split; [|split; [|split; [exact Hbi|exact Hsum]]].
    + intros x Hxi. pose proof (Hb x) as Hx. unfold worker_bound in Hx.
      destruct (Nat.ltb_spec x i); lia.
    + intros x Hxi. pose proof (Hb x) as Hx. unfold worker_bound in Hx.
      destruct (Nat.ltb_spec x i); [lia|]. destruct (Nat.eqb_spec x i); lia.
  - intros Hlast. unfold worker. fold n. rewrite <- Hlast.
    rewrite Nat.sub_diag. reflexivity.
Qed.

Lemma worker_sends_witness :
  let strategies := [StayAtK 20; StayAtK 25; Random] in
  gamesPerSeries * (Z.of_nat (length strategies) - 1) <= max_int /\
  (0 < length strategies)%nat /\
  worker 60 strategies 0 (sample_rng 0) = Ret [10; 0; 10] /\
  0 <= get [10; 0; 10] 1 <= gamesPerSeries /\
  0 <= get [10; 0; 10] 2 <= gamesPerSeries /\
  sumZ [10; 0; 10] = gamesPerSeries * (3 - 1 - 0).
Proof.
  intros strategies.
  assert (Hfit : gamesPerSeries * (Z.of_nat (length strategies) - 1) <= max_int)
    by (vm_compute; discriminate).
  assert (Hi : (0 < length strategies)%nat) by (simpl; lia).
  assert (E : worker 60 strategies 0 (sample_rng 0) = Ret [10; 0; 10])
    by (vm_compute; reflexivity).
  pose proof (proj1 (worker_sends 60 strategies 0 (sample_rng 0) Hfit Hi)) as H.
  rewrite E in H. destruct H as (_ & _ & Hab & _ & Hsum).
  split; [exact Hfit|]. split; [exact Hi|]. split; [exact E|].
  split; [apply Hab; lia|]. split; [apply Hab; lia|exact Hsum].
Defined.

(** [for j := range r { wins[j] += r[j] }] panics exactly when [r] is
    longer than [wins]; otherwise it keeps the length of [wins], adds [r]
    entry by entry in [int] arithmetic and leaves the entries beyond the
    end of [r] alone. *)
Theorem accumulate_bounds (wins r : list Z) :
  ((length wins < length r)%nat <-> accumulate wins r = Panic) /\
  ((length r <= length wins)%nat ->
   exists wins',
     accumulate wins r = Ret wins' /\
     length wins' = length wins /\
     (forall j w x, wins !! j = Some w -> r !! j = Some x ->
                    wins' !! j = Some (int_add w x)) /\
     (forall j, (length r <= j)%nat -> wins' !! j = wins !! j)).
Proof.
  rewrite accumulate_spec.
  destruct (decide (length r <= length wins)%nat) as [Hd|Hd].
  - split; [split; [lia|discriminate]|]. intros _.
    exists (vadd wins r). split; [reflexivity|]. split; [apply length_vadd|].
    split.
    + intros j w x Hw Hx. rewrite lookup_vadd, Hw, Hx. reflexivity.
    + intros j Hj. rewrite lookup_vadd, (lookup_ge_None_2 r j) by exact Hj.
      destruct (wins !! j); reflexivity.
  - split; [split; [reflexivity|lia]|]. lia.
Qed.

(** ** The tally *)

Lemma roundRobin_gathered (fuel : nat) (strategies : list Strategy)
    (rngs : nat -> rng) (order : list nat) :
  gamesPerSeries * (Z.of_nat (length strategies) - 1) <= max_int ->
  arrival (length strategies) order ->
  ok (fun res => gathered strategies (length strategies) res.1 /\
                 res.2 = gamesPerSeries * (Z.of_nat (length strategies) - 1))
     (roundRobin fuel strategies rngs order).
Proof.
  intros Hfit Harr. unfold roundRobin.
  eapply ok_bind.
  - apply (deliveries_ok fuel strategies Hfit rngs order), arrival_bound, Harr.
  - intros vs Hvs.
    destruct (Permutation.Permutation_Forall2 Harr Hvs) as (vs' & Hperm & Hvs').
    rewrite (gather_Permutation vs vs' Hperm).
    destruct (gather_seq_ok strategies Hfit (length strategies) 0 vs'
                (replicate (length strategies) 0)) as (wins & Hw & Hg);
      [lia|exact Hvs'| |].
    + split; [apply length_replicate|]. split; [rewrite sumZ_replicate; lia|].
      intros x. rewrite get_replicate. destruct (Nat.ltb_spec x 0); lia.
    + rewrite Hw. cbn [exec_bind ok fst snd]. split; [exact Hg|].
      unfold int_mul, int_sub, gamesPerSeries in *.
      rewrite (wrap_id (Z.of_nat (length strategies) - 1))
        by (unfold in_int, min_int, max_int in *; lia).
      apply wrap_id. unfold in_int, min_int, max_int in *. lia.
Qed.

(** Every win count that [roundRobin] returns lies between 0 and the
    number of games per strategy it returns with them, so the number of
    losses [games - wins[i]] that [main] computes is not negative either. *)
Theorem roundRobin_entries (fuel : nat) (strategies : list Strategy)
    (rngs : nat -> rng) (order : list nat) (wins : list Z) (games : Z) :
  gamesPerSeries * (Z.of_nat (length strategies) - 1) <= max_int ->
  arrival (length strategies) order ->
  roundRobin fuel strategies rngs order = Ret (wins, games) ->
  Forall (fun w => 0 <= w <= games /\ int_sub games w = games - w /\
                   0 <= games - w) wins.
Proof.
  intros Hfit Harr E.
  pose proof (roundRobin_gathered fuel strategies rngs order Hfit Harr) as H.
  rewrite E in H. simpl in H. destruct H as ((Hlen & _ & Hb) & Hg).
  apply Forall_lookup. intros i w Hi.
  pose proof (lookup_lt_Some _ _ _ Hi) as Hlt. rewrite Hlen in Hlt.
  pose proof (Hb i) as Hbi. unfold get in Hbi. rewrite Hi in Hbi. simpl in Hbi.
  destruct (Nat.ltb_spec i (length strategies)); [|lia].
  unfold gamesPerSeries in *. rewrite Hg.
  split; [lia|]. split; [|lia].
  apply wrap_id. unfold in_int, min_int, max_int in *. lia.
Qed.

Lemma roundRobin_entries_witness :
  Forall (fun w => 0 <= w <= 20 /\ int_sub 20 w = 20 - w /\ 0 <= 20 - w)
         [10; 0; 20].
Proof.
  apply (roundRobin_entries 60 [StayAtK 20; StayAtK 25; Random] sample_rng
           [2; 0; 1]%nat [10; 0; 20] 20).
  - vm_compute. discriminate.
  - unfold arrival. simpl.
    change [2; 0; 1]%nat with ([2]%nat ++ [0; 1]%nat).
    rewrite Permutation_app_comm. reflexivity.
  - vm_compute. reflexivity.
Defined.

Definition is_Ret {A : Type} (m : exec A) : bool :=
  match m with Ret _ => true | _ => false end.

(** The value the worker [i] delivers. *)
Definition delivered (fuel : nat) (strategies : list Strategy)
    (rngs : nat -> rng) (i : nat) : exec (list Z) :=
  worker fuel strategies i (rngs i).

Lemma deliveries_all (fuel : nat) (strategies : list Strategy)
    (rngs : nat -> rng) (val : nat -> list Z) (order : list nat) :
  Forall (fun i => delivered fuel strategies rngs i = Ret (val i)) order ->
  deliveries fuel strategies rngs order = Ret (map val order).
Proof.
  induction 1 as [|i order Hi Hall IH]; [reflexivity|].
  cbn [deliveries]. unfold delivered in Hi. rewrite Hi, IH. reflexivity.
Qed.

Lemma deliveries_missing (fuel : nat) (strategies : list Strategy)
    (rngs : nat -> rng) (i0 : nat) (order : list nat) :
  Forall (fun i => delivered fuel strategies rngs i <> Panic) order ->
  i0 ∈ order ->
  delivered fuel strategies rngs i0 = OutOfFuel ->
  deliveries fuel strategies rngs order = OutOfFuel.
Proof.
  intros Hall Hin H0. induction Hall as [|i order Hi Hall IH].
  - inversion Hin.
  - cbn [deliveries]. unfold delivered in *.
    destruct (worker fuel strategies i (rngs i)) as [v| |] eqn:Ei;
      [|contradiction|reflexivity].
    cbn [exec_bind]. apply elem_of_cons in Hin. destruct Hin as [->|Hin].
    + rewrite Ei in H0. discriminate.
    + rewrite (IH Hin). reflexivity.
Qed.

(** The order in which the vectors arrive has no effect on what
    [roundRobin] does: for two arrival orders it returns the same counts,
    or in both cases waits for a worker that does not deliver. *)
Theorem roundRobin_arrival (fuel : nat) (strategies : list Strategy)
    (rngs : nat -> rng) (order order' : list nat) :
  gamesPerSeries * (Z.of_nat (length strategies) - 1) <= max_int ->
  arrival (length strategies) order ->
  arrival (length strategies) order' ->
  roundRobin fuel strategies rngs order = roundRobin fuel strategies rngs order'.
Proof.
  intros Hfit Harr Harr'.
  assert (Hnp : forall o, arrival (length strategies) o ->
                  Forall (fun i => delivered fuel strategies rngs i <> Panic) o).
  { intros o Ho. eapply Forall_impl; [apply arrival_bound, Ho|].
    intros i Hi E. simpl in Hi.
    pose proof (worker_ok fuel strategies Hfit i (rngs i) Hi) as Hok.
    unfold delivered in E. rewrite E in Hok. exact Hok. }
  set (val := fun i => match delivered fuel strategies rngs i with
                       | Ret v => v | _ => [] end).
  destruct (decide (Forall (fun i => is_Ret (delivered fuel strategies rngs i) = true)
                      (seq 0 (length strategies)))) as [Hall|Hnot].
  - assert (Hall' : Forall (fun i => delivered fuel strategies rngs i = Ret (val i))
                      (seq 0 (length strategies))).
    { eapply Forall_impl; [exact Hall|]. intros i Hi. simpl in Hi. unfold val.
      destruct (delivered fuel strategies rngs i); [reflexivity|discriminate..]. }
    unfold roundRobin.
    rewrite (deliveries_all fuel strategies rngs val order)
      by (unfold arrival in Harr; rewrite Harr; exact Hall').
    rewrite (deliveries_all fuel strategies rngs val order')
      by (unfold arrival in Harr'; rewrite Harr'; exact Hall').
    cbn [exec_bind].
    rewrite (gather_Permutation (map val order) (map val order')); [reflexivity|].
    apply Permutation_map. unfold arrival in *. rewrite Harr, Harr'. reflexivity.
  - apply not_Forall_Exists in Hnot; [|intros i; apply _].
    apply Exists_exists in Hnot. destruct Hnot as (i0 & Hin & Hi0).
    assert (H0 : delivered fuel strategies rngs i0 = OutOfFuel).
    { pose proof (Hnp _ Harr) as Hp. rewrite Forall_forall in Hp.
      assert (Hin0 : i0 ∈ order) by (unfold arrival in Harr; rewrite Harr; exact Hin).
      specialize (Hp i0 Hin0). simpl in Hi0.
      destruct (delivered fuel strategies rngs i0); simpl in Hi0; congruence. }
    unfold roundRobin.
    rewrite (deliveries_missing fuel strategies rngs i0 order (Hnp _ Harr));
      [|unfold arrival in Harr; rewrite Harr; exact Hin|exact H0].
    rewrite (deliveries_missing fuel strategies rngs i0 order' (Hnp _ Harr'));
      [|unfold arrival in Harr'; rewrite Harr'; exact Hin|exact H0].
    reflexivity.
Qed.

Lemma arrival_sample : arrival 3 [2; 0; 1]%nat.
Proof.
  unfold arrival. simpl.
  change [2; 0; 1]%nat with ([2]%nat ++ [0; 1]%nat).
  rewrite Permutation_app_comm. reflexivity.
Qed.

Lemma roundRobin_arrival_witness :
  roundRobin 60 [StayAtK 20; StayAtK 25; Random] sample_rng [2; 0; 1]%nat
  = roundRobin 60 [StayAtK 20; StayAtK 25; Random] sample_rng [0; 1; 2]%nat.
Proof.
  apply (roundRobin_arrival 60 [StayAtK 20; StayAtK 25; Random] sample_rng
           [2; 0; 1]%nat [0; 1; 2]%nat).
  - vm_compute. discriminate.
  - exact arrival_sample.
  - unfold arrival. reflexivity.
Defined.

(** ** Tournaments that return *)

(** [runs P m]: the call [m] returns within the fuel, unless it panics,
    and what it returns satisfies [P]. *)
Definition runs {A : Type} (P : A -> Prop) (m : exec A) : Prop :=
  match m with
  | Ret a => P a
  | Panic => True
  | OutOfFuel => False
  end.

Lemma runs_bind {A B : Type} (P : A -> Prop) (Q : B -> Prop)
    (m : exec A) (f : A -> exec B) :
  runs P m -> (forall a, P a -> runs Q (f a)) -> runs Q (let* a := m in f a).
Proof. destruct m; simpl; auto. Qed.

Lemma runs_ok {A : Type} (P Q : A -> Prop) (m : exec A) :
  runs P m -> ok Q m -> exists a, m = Ret a /\ P a /\ Q a.
Proof. destruct m; simpl; intros H1 H2; try contradiction. eauto. Qed.

(** Every cell the source has yet to deliver is lucky. *)
Definition all_lucky (r : rng) : Prop :=
  forall i : nat, (pos r <= i)%nat -> lucky (tape r i) = true.

Lemma all_lucky_later (r r' : rng) :
  all_lucky r -> tape r' = tape r -> (pos r <= pos r')%nat -> all_lucky r'.
Proof. intros H Ht Hp i Hi. rewrite Ht. apply H. lia. Qed.

Section Bounded.

Variables a0 a1 : kind.
Hypothesis Hlive : live a0 || live a1 = true.

Let strategies : list Strategy := [strategy_of a0; strategy_of a1].

Lemma finish_within (d : nat) :
  forall g : game,
    in_game (g_s g) -> role (g_currentPlayer g) ->
    3 * (200 - points (g_s g)) + idle_steps a0 a1 g <= Z.of_nat d ->
    all_lucky (g_rng g) ->
    exists n g',
      (n <= d)%nat /\
      steps strategies n g g' /\ role (g_currentPlayer g') /\
      play_cond g' = false /\
      tape (g_rng g') = tape (g_rng g) /\
      (pos (g_rng g) <= pos (g_rng g'))%nat.
Proof using Hlive.
  induction d as [|d IH]; intros g Hin Hc Hm Hwin;
    pose proof (idle_steps_range a0 a1 g) as Hi;
    destruct (play_cond g) eqn:Ec;
    try (exists 0%nat, g; split; [lia|]; split; [apply steps_O|];
         split; [assumption|]; split; [assumption|]; split; [reflexivity|lia]);
    assert (Hlt : player (g_s g) + thisTurn (g_s g) < 100)
      by (rewrite play_cond_in_game in Ec by exact Hin; apply Z.ltb_lt, Ec);
    assert (Hpts : points (g_s g) <= 198)
      by (unfold points; destruct Hin as (? & ? & ?); lia).
  - lia.
  - pose proof (play_body_next a0 a1 g Hin Hc) as Hb.
    destruct (next_game_facts (kind_at a0 a1 (g_currentPlayer g)) g Hin Hc Hlt)
      as (Hin' & Hc' & Htape & Hp' & Hidle & Hluck).
    set (g1 := next_game (kind_at a0 a1 (g_currentPlayer g)) g) in *.
    pose proof (idle_steps_range a0 a1 g1) as Hi1.
    assert (Hstep :
      (points (g_s g1) = points (g_s g) /\
       idle_steps a0 a1 g1 < idle_steps a0 a1 g) \/
      points (g_s g) + 2 <= points (g_s g1)).
    { destruct (decide (pos (g_rng g1) = pos (g_rng g))) as [He|He].
      - left. destruct (Hidle He) as ((k & Hk & Hkt) & Hfl & Ht0 & Hpt).
        split; [exact Hpt|].
        apply (idle_steps_decrease a0 a1 g g1 k Hlive Hc Hk Hkt
                 (proj1 (proj2 (proj2 Hin))) Hfl Ht0).
      - right. apply Hluck; [apply Hwin; lia|apply Hwin; lia|exact He]. }
    destruct (IH g1 Hin' Hc') as (n & g' & Hn & Hs & Hc2 & Hend & Ht2 & Hp2).
    + destruct Hstep as [(Hpt & Hlt') | Hgrow]; lia.
    + apply (all_lucky_later (g_rng g)); [exact Hwin|exact Htape|lia].
    + exists (S n), g'. split; [lia|]. split; [eapply steps_S; eauto|].
      split; [assumption|]. split; [assumption|]. split; [congruence|lia].
Qed.

Lemma play_lucky (fuel : nat) (r : rng) :
  (603 <= fuel)%nat -> all_lucky r ->
  exists w rf,
    play fuel (strategy_of a0) (strategy_of a1) r = Ret (w, rf) /\
    all_lucky rf.
Proof using Hlive.
  intros Hfuel Hr. unfold play.
  pose proof (first_player_role r) as Hc.
  rewrite (surjective_pairing (rand_Intn 2 r)). rewrite rand_Intn_rng.
  set (c := (rand_Intn 2 r).1) in *.
  set (g0 := mkGame (mkScore 0 0 0) c (mkRng (tape r) (S (pos r)))).
  assert (Hin0 : in_game (g_s g0)) by (unfold in_game; simpl; lia).
  pose proof (idle_steps_range a0 a1 g0) as Hi0.
  destruct (finish_within 602 g0 Hin0 Hc) as (n & g' & Hn & Hs & Hc' & Hend & Ht & Hp).
  { unfold points. simpl. lia. }
  { intros i Hi. simpl in *. apply Hr. lia. }
  exists (g_currentPlayer g'), (g_rng g'). split.
  - fold strategies. replace fuel with (n + S (fuel - n - 1))%nat by lia.
    rewrite (steps_loop strategies n g0 g' Hs). simpl. rewrite Hend. reflexivity.
  - apply (all_lucky_later r); [exact Hr|exact Ht|simpl in Hp; lia].
Qed.

End Bounded.

(** No two strategies of the list can stall against each other. *)
Definition pairwise_live (kinds : list kind) : Prop :=
  forall (i j : nat) (a b : kind),
    (i < j)%nat -> kinds !! i = Some a -> kinds !! j = Some b ->
    live a || live b = true.

Section Returning.

Variable fuel : nat.
Variable kinds : list kind.
Hypothesis Hfuel : (603 <= fuel)%nat.

Let strategies : list Strategy := map strategy_of kinds.

Lemma index_kind (i : nat) (a : kind) :
  kinds !! i = Some a -> index strategies (Z.of_nat i) = Ret (strategy_of a).
Proof.
  intros H. apply index_of_nat. unfold strategies.
  change (map strategy_of kinds) with (strategy_of <$> kinds).
  rewrite list_lookup_fmap, H. reflexivity.
Qed.

Lemma incr_runs (w : list Z) (t : nat) : runs (fun _ => True) (incr w t).
Proof. unfold incr. destruct (w !! t); exact I. Qed.

Lemma series_runs (i j : nat) (a b : kind) (games : nat) :
  kinds !! i = Some a -> kinds !! j = Some b -> live a || live b = true ->
  forall (w : list Z) (r : rng),
    all_lucky r ->
    runs (fun res => all_lucky res.2) (series fuel strategies i j games w r).
Proof using Hfuel.
  intros Hi Hj Hl. induction games as [|games IH]; intros w r Hr; [exact Hr|].
  cbn [series]. rewrite (index_kind i a Hi), (index_kind j b Hj). cbn [exec_bind].
  destruct (play_lucky a b Hl fuel r Hfuel Hr) as (winner & rf & Hp & Hrf).
  rewrite Hp. cbn [exec_bind].
  apply (runs_bind (fun _ => True)).
  - destruct (winner =? 0); apply incr_runs.
  - intros w' _. apply IH, Hrf.
Qed.

Lemma pairings_runs (i : nat) (a : kind) (js : list nat) :
  kinds !! i = Some a ->
  Forall (fun j => exists b, kinds !! j = Some b /\ live a || live b = true) js ->
  forall (w : list Z) (r : rng),
    all_lucky r ->
    runs (fun res => all_lucky res.2) (pairings fuel strategies i js w r).
Proof using Hfuel.
  intros Hi Hjs. induction Hjs as [|j js (b & Hj & Hl) Hjs IH]; intros w r Hr;
    [exact Hr|].
  cbn [pairings]. eapply runs_bind.
  - apply (series_runs i j a b _ Hi Hj Hl w r Hr).
  - intros [w' r'] Hr'. apply IH, Hr'.
Qed.

Lemma worker_runs (i : nat) (r : rng) :
  pairwise_live kinds -> (i < length kinds)%nat -> all_lucky r ->
  runs (fun _ => True) (worker fuel strategies i r).
Proof using Hfuel.
  intros Hpl Hi Hr. unfold worker.
  destruct (lookup_lt_is_Some_2 kinds i Hi) as [a Ha].
  eapply runs_bind.
  - apply (pairings_runs i a _ Ha); [|exact Hr].
    apply Forall_forall. intros j Hj. apply elem_of_seq in Hj.
    unfold strategies in Hj. rewrite length_map in Hj.
    destruct (lookup_lt_is_Some_2 kinds j) as [b Hb]; [lia|].
    exists b. split; [exact Hb|]. apply (Hpl i j a b); [lia|exact Ha|exact Hb].
  - intros [w r'] _. exact I.
Qed.

Lemma deliveries_runs (rngs : nat -> rng) (order : list nat) :
  pairwise_live kinds ->
  Forall (fun i => (i < length kinds)%nat) order ->
  (forall i, all_lucky (rngs i)) ->
  runs (fun _ => True) (deliveries fuel strategies rngs order).
Proof using Hfuel.
  intros Hpl Hord Hr. induction Hord as [|i order Hi Hord IH]; [exact I|].
  cbn [deliveries].
  apply (runs_bind (fun _ => True)); [apply (worker_runs i _ Hpl Hi (Hr i))|].
  intros v _. apply (runs_bind (fun _ => True)); [exact IH|]. intros vs _. exact I.
Qed.

Lemma add_range_runs (r : list Z) (js : list nat) :
  forall wins, runs (fun _ => True) (add_range wins r js).
Proof.
  induction js as [|j js IH]; intros wins; [exact I|].
  cbn [add_range]. apply (runs_bind (fun _ => True)); [|intros w _; apply IH].
  unfold add_at. destruct (wins !! j), (r !! j); exact I.
Qed.

Lemma gather_runs (received : list (list Z)) :
  forall wins, runs (fun _ => True) (gather wins received).
Proof.
  induction received as [|r rest IH]; intros wins; [exact I|].
  cbn [gather]. apply (runs_bind (fun _ => True)); [apply add_range_runs|].
  intros w _. apply IH.
Qed.

Lemma roundRobin_runs (rngs : nat -> rng) (order : list nat) :
  pairwise_live kinds ->
  arrival (length kinds) order ->
  (forall i, all_lucky (rngs i)) ->
  runs (fun _ => True) (roundRobin fuel strategies rngs order).
Proof using Hfuel.
  intros Hpl Harr Hr. unfold roundRobin.
  eapply runs_bind.
  - apply (deliveries_runs rngs order Hpl (arrival_bound _ _ Harr) Hr).
  - intros vs _. apply (runs_bind (fun _ => True)); [apply gather_runs|].
    intros w _. exact I.
Qed.

End Returning.

Lemma roundRobin_returns_lucky (fuel : nat) (kinds : list kind)
    (rngs : nat -> rng) (order : list nat) :
  let n := Z.of_nat (length kinds) in
  (603 <= fuel)%nat ->
  gamesPerSeries * (n - 1) <= max_int ->
  pairwise_live kinds ->
  arrival (length kinds) order ->
  (forall i, all_lucky (rngs i)) ->
  exists wins,
    roundRobin fuel (map strategy_of kinds) rngs order
      = Ret (wins, gamesPerSeries * (n - 1)) /\
    length wins = length kinds /\
    sumZ wins = gamesPerSeries * (n * (n - 1) / 2).
Proof.
  intros n Hfuel Hfit Hpl Harr Hr.
  assert (Hlen : length (map strategy_of kinds) = length kinds) by apply length_map.
  destruct (runs_ok _ _ _
              (roundRobin_runs fuel kinds Hfuel rngs order Hpl Harr Hr)
              (roundRobin_ok fuel (map strategy_of kinds) rngs order
                 ltac:(rewrite Hlen; exact Hfit) ltac:(rewrite Hlen; exact Harr)))
    as ([wins g] & E & _ & Hl & Hs & Hg).
  simpl in Hl, Hs, Hg. rewrite Hlen in Hl, Hs, Hg. fold n in Hs, Hg.
  exists wins. rewrite E, Hg. auto.
Qed.

(** When no two strategies of the list can stall against each other
    (strategies of the program, at most one of them a [StayAtK] with a
    threshold of 0 or less) and every worker draws lucky cells only,
    [roundRobin] returns: 603 iterations of the game loop are enough for
    every game.  The counts it returns have the sum and the bounds above. *)
Theorem roundRobin_returns (fuel : nat) (kinds : list kind)
    (rngs : nat -> rng) (order : list nat) :
  let n := Z.of_nat (length kinds) in
  (603 <= fuel)%nat ->
  gamesPerSeries * (n - 1) <= max_int ->
  pairwise_live kinds ->
  arrival (length kinds) order ->
  (forall i, all_lucky (rngs i)) ->
  exists wins,
    roundRobin fuel (map strategy_of kinds) rngs order
      = Ret (wins, gamesPerSeries * (n - 1)) /\
    length wins = length kinds /\
    sumZ wins = gamesPerSeries * (n * (n - 1) / 2).
Proof. exact (roundRobin_returns_lucky fuel kinds rngs order). Qed.








Lemma pairwise_live_sample : pairwise_live [KStay 20; KStay 0; KRandom].
Proof.
  intros i j a b Hij Ha Hb.
  destruct i as [|[|[|i]]]; destruct j as [|[|[|j]]];
    simpl in Ha, Hb; try lia; try discriminate;
    injection Ha as <-; injection Hb as <-; reflexivity.
Qed.

Lemma roundRobin_returns_witness :
  exists wins,
    roundRobin 603 [StayAtK 20; StayAtK 0; Random]
      (fun _ => mkRng (fun _ => 1) 0) [2; 0; 1]%nat = Ret (wins, 20) /\
    length wins = 3%nat /\ sumZ wins = 30.
Proof.
  apply (roundRobin_returns 603 [KStay 20; KStay 0; KRandom]
           (fun _ => mkRng (fun _ => 1) 0) [2; 0; 1]%nat).
  - lia.
  - vm_compute. discriminate.
  - exact pairwise_live_sample.
  - exact arrival_sample.
  - intros i k _. reflexivity.
Defined.

(** ** The report *)

Section ReportEdge.

Local Open Scope string_scope.

Lemma string_app_nonempty_l (a b : string) : a <> "" -> a ++ b <> "".
Proof. intros Ha. destruct a; [contradiction|discriminate]. Qed.

(** [ratioString] returns the empty string for no values and only then;
    with values, the result starts with the rendering of the first value
    and holds one separator for each further value. *)
Theorem ratioString_empty (vals : list Z) :
  (ratioString vals = "" <-> vals = []) /\
  (forall v rest,
     vals = v :: rest ->
     ratioString vals =
       ratio_entry v (ratio_total vals)
       ++ separated (map (fun val => ratio_entry val (ratio_total vals)) rest)).
Proof.
  split.
  - split; [|intros ->; reflexivity].
    destruct vals as [|v rest]; [reflexivity|]. intros H. exfalso.
    rewrite ratioString_join in H. cbn [map] in H.
    rewrite concat_separated in H. revert H.
    apply string_app_nonempty_l, ratio_entry_nonempty.
  - intros v rest ->. rewrite ratioString_join. cbn [map].
    apply concat_separated.
Qed.

End ReportEdge.

(** ** The program's tournament *)

(** The strategies of [main]: the thresholds 1 to 100, then [Random]. *)
Definition main_kinds : list kind := map KStay (seqZ 1 100) ++ [KRandom].

Definition main_labels : list string :=
  map StayAtK_String (seqZ 1 100) ++ [Random_String].

Lemma main_strategies_eq : main_strategies = Ret (map strategy_of main_kinds).
Proof. cbv -[StayAtK Random]. reflexivity. Qed.

Lemma main_kinds_live : Forall (fun a => live a = true) main_kinds.
Proof.
  unfold main_kinds. apply Forall_app. split.
  - apply Forall_forall. intros a Ha.
    change (map KStay (seqZ 1 100)) with (KStay <$> seqZ 1 100) in Ha.
    apply list_elem_of_fmap in Ha. destruct Ha as (k & -> & Hk).
    apply elem_of_seqZ in Hk. simpl. apply Z.ltb_lt. lia.
  - repeat constructor.
Qed.

Lemma main_kinds_pairwise : pairwise_live main_kinds.
Proof.
  intros i j a b _ Ha _. pose proof main_kinds_live as H.
  rewrite Forall_lookup in H. rewrite (H i a Ha). reflexivity.
Qed.

Lemma main_labels_NoDup : NoDup main_labels.
Proof.
  unfold main_labels. apply NoDup_app. split; [|split].
  - change (map StayAtK_String (seqZ 1 100)) with (StayAtK_String <$> seqZ 1 100).
    apply NoDup_fmap_2; [|apply NoDup_seqZ].
    intros k k' H. apply (proj1 (StayAtK_String_inj k k') H).
  - intros l Hl Hr. apply list_elem_of_singleton in Hr. subst l.
    change (map StayAtK_String (seqZ 1 100)) with (StayAtK_String <$> seqZ 1 100) in Hl.
    apply list_elem_of_fmap in Hl. destruct Hl as (k & Hk & _).
    unfold StayAtK_String, Random_String in Hk. simpl in Hk. discriminate.
  - apply NoDup_singleton.
Qed.

Lemma main_labels_eq :
  map Strategy_String (map strategy_of main_kinds) = main_labels.
Proof. vm_compute. reflexivity. Qed.

(** The list [main] builds, written out. *)
Definition main_list : list Strategy := map StayAtK (seqZ 1 100) ++ [Random].

Lemma main_list_eq : map strategy_of main_kinds = main_list.
Proof. unfold main_kinds, main_list. rewrite map_app, map_map. reflexivity. Qed.

Lemma main_list_lookup (i : nat) :
  (i < 100)%nat -> main_list !! i = Some (StayAtK (Z.of_nat i + 1)).
Proof.
  intros Hi. unfold main_list.
  change (map StayAtK (seqZ 1 100)) with (StayAtK <$> seqZ 1 100).
  rewrite lookup_app_l by (rewrite length_fmap, length_seqZ; lia).
  rewrite list_lookup_fmap, lookup_seqZ_lt by lia.
  simpl. f_equal. f_equal. lia.
Qed.

(** [main] fills every entry of its slice, without a write out of range
    and without leaving a nil entry: [roundRobin] receives 101 strategies,
    entry [k] being [StayAtK(k + 1)] for [k] from 0 to 99 and entry 100
    being [Random].  So every threshold lies between 1 and 100, and the
    labels, ["Stay at 1"] to ["Stay at 100"] and ["Random!"], are pairwise
    distinct. *)
Theorem main_strategies_built :
  main_strategies = Ret main_list /\
  length main_list = 101%nat /\
  (forall i : nat, (i < 100)%nat ->
     main_list !! i = Some (StayAtK (Z.of_nat i + 1))) /\
  main_list !! 100%nat = Some Random /\
  (forall k : Z, StayAtK k ∈ main_list -> 1 <= k <= 100) /\
  map Strategy_String main_list = main_labels /\
  NoDup main_labels.
Proof.
  split; [rewrite main_strategies_eq, main_list_eq; reflexivity|].
  split; [reflexivity|]. split; [exact main_list_lookup|].
  split; [reflexivity|]. split.
  - intros k Hk. apply list_elem_of_lookup in Hk. destruct Hk as [i Hi].
    pose proof (lookup_lt_Some _ _ _ Hi) as Hlt.
    change (length main_list) with 101%nat in Hlt.
    destruct (decide (i < 100)%nat) as [Hlt'|Hge].
    + rewrite (main_list_lookup i Hlt') in Hi.
      apply (f_equal (option_map Strategy_String)) in Hi. simpl in Hi.
      injection Hi as Hi. apply itoa_inj in Hi. lia.
    + replace i with 100%nat in Hi by lia.
      change (main_list !! 100%nat) with (Some Random) in Hi.
      apply (f_equal (option_map Strategy_String)) in Hi. simpl in Hi.
      unfold StayAtK_String, Random_String in Hi. simpl in Hi.
      discriminate.
  - split; [rewrite <- main_list_eq; exact main_labels_eq|exact main_labels_NoDup].
Qed.

Section MainReport.

Local Open Scope string_scope.

(** [w] tenths with one decimal. *)
Definition tenth_text (w : Z) : string :=
  itoa (w / 10) ++ "." ++ itoa (w mod 10).

(** The line of the report for a strategy with [w] wins in 1000 games. *)
Definition report_row (label : string) (w : Z) : string :=
  "Wins, losses " ++ label ++ ": "
  ++ itoa w ++ "/1000 (" ++ tenth_text w ++ "%), "
  ++ itoa (1000 - w) ++ "/1000 (" ++ tenth_text (1000 - w) ++ "%)" ++ newline.

Fixpoint report_rows (labels : list string) (wins : list Z) : string :=
  match labels, wins with
  | label :: labels', w :: wins' => report_row label w ++ report_rows labels' wins'
  | _, _ => ""
  end.

Lemma ratio_thousand (w : Z) :
  (0 <= w <= 1000)%Z ->
  ratioString [w; int_sub 1000 w] =
  itoa w ++ "/1000 (" ++ tenth_text w ++ "%), "
  ++ itoa (1000 - w) ++ "/1000 (" ++ tenth_text (1000 - w) ++ "%)".
Proof.
  intros Hw.
  assert (Hall : forallb
            (fun w => String.eqb (ratioString [w; int_sub 1000 w])
                        (itoa w ++ "/1000 (" ++ tenth_text w ++ "%), "
                         ++ itoa (1000 - w) ++ "/1000 ("
                         ++ tenth_text (1000 - w) ++ "%)"))
            (seqZ 0 1001) = true) by (vm_compute; reflexivity).
  rewrite forallb_forall in Hall. apply String.eqb_eq, Hall.
  apply list_elem_of_In, elem_of_seqZ. lia.
Qed.

Lemma report_line_row (s : Strategy) (w : Z) :
  (0 <= w <= 1000)%Z ->
  report_line s w 1000 = report_row (Strategy_String s) w.
Proof.
  intros Hw. unfold report_line, report_row. rewrite (ratio_thousand w Hw).
  rewrite !string_app_assoc. reflexivity.
Qed.

Lemma string_app_nil_r (a : string) : a ++ "" = a.
Proof. induction a as [|c a IH]; simpl; [reflexivity|]. rewrite IH. reflexivity. Qed.

Lemma concat_cons_nosep (x : string) (l : list string) :
  String.concat "" (x :: l) = x ++ String.concat "" l.
Proof. destruct l; simpl; [symmetry; apply string_app_nil_r|reflexivity]. Qed.

Lemma index_app {A : Type} (pre : list A) (x : A) (rest : list A) :
  index (pre ++ x :: rest) (Z.of_nat (length pre)) = Ret x.
Proof.
  apply index_of_nat. rewrite lookup_app_r by lia.
  rewrite Nat.sub_diag. reflexivity.
Qed.

Lemma main_report_rows (games : Z) (strategies : list Strategy) :
  forall (wins : list Z) (pre_s : list Strategy) (pre_w : list Z),
    length wins = length strategies ->
    length pre_w = length pre_s ->
    main_report (pre_s ++ strategies) (pre_w ++ wins) games
      (seq (length pre_s) (length strategies))
    = Ret (String.concat ""
             (zip_with (fun s w => report_line s w games) strategies wins)).
Proof.
  induction strategies as [|s strategies IH]; intros wins pre_s pre_w Hlen Hpre.
  - reflexivity.
  - destruct wins as [|w wins]; [discriminate|]. simpl in Hlen.
    cbn [length seq main_report zip_with].
    rewrite index_app. rewrite <- Hpre, index_app, Hpre. cbn [exec_bind].
    specialize (IH wins (pre_s ++ [s])%list (pre_w ++ [w])%list).
    rewrite <- !app_assoc in IH. simpl in IH.
    rewrite !length_app in IH. simpl in IH. rewrite !Nat.add_1_r in IH.
    rewrite IH; [|lia|lia].
    cbn [exec_bind]. rewrite concat_cons_nosep. reflexivity.
Qed.

Lemma main_report_all (games : Z) (strategies : list Strategy) (wins : list Z) :
  length wins = length strategies ->
  main_report strategies wins games (seq 0 (length strategies))
  = Ret (String.concat ""
           (zip_with (fun s w => report_line s w games) strategies wins)).
Proof. intros H. exact (main_report_rows games strategies wins [] [] H eq_refl). Qed.

Lemma concat_rows (strategies : list Strategy) :
  forall wins : list Z,
    Forall (fun w => 0 <= w <= 1000)%Z wins ->
    String.concat "" (zip_with (fun s w => report_line s w 1000) strategies wins)
    = report_rows (map Strategy_String strategies) wins.
Proof.
  induction strategies as [|s strategies IH]; intros wins Hw; [reflexivity|].
  destruct wins as [|w wins]; [reflexivity|].
  inversion Hw as [|? ? Hw1 Hw2]; subst.
  cbn [zip_with map report_rows]. rewrite <- (IH wins Hw2).
  rewrite <- (report_line_row s w Hw1). apply concat_cons_nosep.
Qed.

(** [main] prints exactly what [roundRobin] returned for its list: when
    [roundRobin] returns the counts [wins], [main] prints, for the
    strategies in the order of the list, one line with the label of the
    strategy, its own count [wins[i]] and its losses out of 1000, each
    with the exact percentage to one decimal; and [main] does not return
    when [roundRobin] does not.  Neither panics.  The counts are 101,
    between 0 and 1000, with sum 50500, the games per strategy are 1000,
    so no percentage is printed as [NaN].  When every worker draws lucky
    cells only, 603 iterations per game are enough for [main] to print the
    report. *)
Theorem main_prints (fuel : nat) (rngs : nat -> rng) (order : list nat) :
  arrival 101 order ->
  main fuel rngs order =
    match roundRobin fuel main_list rngs order with
    | Ret (wins, games) => Ret (report_rows main_labels wins)
    | Panic => Panic
    | OutOfFuel => OutOfFuel
    end /\
  roundRobin fuel main_list rngs order <> Panic /\
  (forall wins games,
     roundRobin fuel main_list rngs order = Ret (wins, games) ->
     games = 1000%Z /\ length wins = 101%nat /\ sumZ wins = 50500%Z /\
     Forall (fun w => 0 <= w <= 1000)%Z wins) /\
  ((603 <= fuel)%nat -> (forall i, all_lucky (rngs i)) ->
   exists wins,
     roundRobin fuel main_list rngs order = Ret (wins, 1000%Z) /\
     main fuel rngs order = Ret (report_rows main_labels wins)).
Proof.
  intros Harr. unfold main. rewrite main_strategies_eq. cbn [exec_bind].
  rewrite <- main_list_eq.
  assert (Hlen : length (map strategy_of main_kinds) = 101%nat) by reflexivity.
  assert (Hfit : (gamesPerSeries
                  * (Z.of_nat (length (map strategy_of main_kinds)) - 1)
                  <= max_int)%Z) by (rewrite Hlen; vm_compute; discriminate).
  assert (Harr' : arrival (length (map strategy_of main_kinds)) order)
    by (rewrite Hlen; exact Harr).
  assert (Hshape : forall wins games,
            roundRobin fuel (map strategy_of main_kinds) rngs order
              = Ret (wins, games) ->
            games = 1000%Z /\ length wins = 101%nat /\ sumZ wins = 50500%Z /\
            Forall (fun w => 0 <= w <= 1000)%Z wins).
  { intros wins games E.
    pose proof (roundRobin_ok fuel _ rngs order Hfit Harr') as Hok.
    rewrite E in Hok. cbn [ok fst snd] in Hok. rewrite Hlen in Hok.
    destruct Hok as (Hl & Hs & Hg).
    assert (Hg' : games = 1000%Z) by (rewrite Hg; reflexivity).
    split; [exact Hg'|]. split; [exact Hl|]. split; [rewrite Hs; reflexivity|].
    pose proof (roundRobin_gathered fuel _ rngs order Hfit Harr') as Hga.
    rewrite E in Hga. cbn [ok fst snd] in Hga.
    destruct Hga as ((_ & _ & Hb) & _).
    apply Forall_lookup. intros i w Hi.
    pose proof (lookup_lt_Some _ _ _ Hi) as Hlt. rewrite Hl in Hlt.
    pose proof (Hb i) as Hbi. unfold get in Hbi. rewrite Hi, Hlen in Hbi.
    cbn [default] in Hbi. unfold id in Hbi.
    destruct (Nat.ltb_spec i 101); lia. }
  assert (Hrep : forall wins,
            length wins = 101%nat -> Forall (fun w => 0 <= w <= 1000)%Z wins ->
            main_report (map strategy_of main_kinds) wins 1000
              (seq 0 (length (map strategy_of main_kinds)))
            = Ret (report_rows main_labels wins)).
  { intros wins Hl Hw.
    rewrite (main_report_all 1000 (map strategy_of main_kinds) wins)
      by (rewrite Hl, Hlen; reflexivity).
    rewrite (concat_rows _ wins Hw).
    replace (map Strategy_String (map strategy_of main_kinds)) with main_labels
      by (symmetry; apply main_labels_eq).
    reflexivity. }
  assert (Hmain : forall wins games,
            roundRobin fuel (map strategy_of main_kinds) rngs order
              = Ret (wins, games) ->
            main_report (map strategy_of main_kinds) wins games
              (seq 0 (length (map strategy_of main_kinds)))
            = Ret (report_rows main_labels wins)).
  { intros wins games E. destruct (Hshape wins games E) as (-> & Hl & _ & Hw).
    apply (Hrep wins Hl Hw). }
  pose proof (roundRobin_ok fuel _ rngs order Hfit Harr') as Hok.
  split; [|split; [|split]].
  - destruct (roundRobin fuel (map strategy_of main_kinds) rngs order)
      as [[wins games]| |] eqn:E; [|reflexivity..].
    cbn [exec_bind]. apply (Hmain wins games eq_refl).
  - intros E. rewrite E in Hok. exact Hok.
  - exact Hshape.
  - intros Hfuel Hr.
    assert (Hfit0 : (gamesPerSeries * (Z.of_nat (length main_kinds) - 1)
                     <= max_int)%Z) by (vm_compute; discriminate).
    pose proof (roundRobin_returns_lucky fuel main_kinds rngs order Hfuel Hfit0
                  main_kinds_pairwise Harr Hr) as (wins & E & _).
    exists wins. split; [exact E|].
    rewrite E. cbn [exec_bind]. apply (Hmain wins _ E).
Qed.

End MainReport.

Lemma main_prints_witness :
  arrival 101 (seq 0 101) /\
  exists wins,
    roundRobin 603 main_list (fun _ => mkRng (fun _ => 1) 0) (seq 0 101)
      = Ret (wins, 1000) /\
    main 603 (fun _ => mkRng (fun _ => 1) 0) (seq 0 101)
      = Ret (report_rows main_labels wins).
Proof.
  assert (H : arrival 101 (seq 0 101)) by (unfold arrival; reflexivity).
  split; [exact H|].
  apply (proj2 (proj2 (proj2
           (main_prints 603 (fun _ => mkRng (fun _ => 1) 0) (seq 0 101) H)))).
  - apply Nat.le_refl.
  - intros i k _. reflexivity.
Defined.

(** ** Draws *)

Lemma steps_draws (a0 a1 : kind) (n : nat) (g g' : game) :
  steps [strategy_of a0; strategy_of a1] n g g' ->
  in_game (g_s g) -> role (g_currentPlayer g) ->
  tape (g_rng g') = tape (g_rng g) /\
  (pos (g_rng g) <= pos (g_rng g') <= pos (g_rng g) + 2 * n)%nat.
Proof.
  induction 1 as [g|n g g1 g' Hc Hb Hs IH]; intros Hin Hr; [split; [reflexivity|lia]|].
  rewrite (play_body_next a0 a1 g Hin Hr) in Hb. injection Hb as <-.
  assert (Hlt : player (g_s g) + thisTurn (g_s g) < 100)
    by (rewrite play_cond_in_game in Hc by exact Hin; apply Z.ltb_lt, Hc).
  destruct (next_game_facts (kind_at a0 a1 (g_currentPlayer g)) g Hin Hr Hlt)
    as (Hin' & Hr' & Ht & Hp & _).
  destruct (IH Hin' Hr') as [Ht' Hp']. split; [congruence|lia].
Qed.

(** The random source is only read forwards: [roll] reads one cell,
    [stay] and the choice of a [StayAtK] none, the choice of [Random] one,
    whatever the score, and its answer is [stay] or [roll]; so a game
    between strategies of the program reads at most two cells in each
    pass through the loop, never fewer than it had read before, and leaves
    the cells themselves as they were. *)
Theorem draws_read (a0 a1 : kind) (s : score) (r : rng) :
  (roll s r).2 = advance r /\
  (stay s r).2 = r /\
  (forall k, (nextAction (StayAtK k) s r).2 = r) /\
  (nextAction Random s r).2 = advance r /\
  ((nextAction Random s r).1 = stay \/ (nextAction Random s r).1 = roll) /\
  (forall s', nextAction Random s' r = nextAction Random s r) /\
  (forall n g',
     steps [strategy_of a0; strategy_of a1] n
       (mkGame (mkScore 0 0 0) (rand_Intn 2 r).1 (rand_Intn 2 r).2) g' ->
     tape (g_rng g') = tape r /\
     (S (pos r) <= pos (g_rng g') <= S (pos r) + 2 * n)%nat).
Proof.
  split; [rewrite roll_unfold; reflexivity|]. split; [reflexivity|].
  split; [intros k; simpl; unfold StayAtK_nextAction;
          destruct (thisTurn s >=? k); reflexivity|].
  assert (HR : forall s0, Random_nextAction s0 r
                 = (if 2 ^ 52 <? tape r (pos r) mod 2 ^ 53 then stay else roll,
                    advance r)).
  { intros s0. unfold Random_nextAction, rand_Float64_gt_half, draw.
    fold (advance r). destruct (2 ^ 52 <? tape r (pos r) mod 2 ^ 53); reflexivity. }
  simpl nextAction. rewrite (HR s).
  split; [reflexivity|].
  split; [simpl; destruct (2 ^ 52 <? tape r (pos r) mod 2 ^ 53); auto|].
  split; [intros s'; apply HR|].
  intros n g' Hs.
  apply (steps_draws a0 a1 n _ g' Hs).
  - unfold in_game. simpl. lia.
  - apply first_player_role.
Qed.
